(** * briefjesspel: the game session

    A shallow embedding of the [Game] class (the session state machine of the
    party game) and the properties of its commands.  The class is JavaScript:
    the embedding keeps the language's behaviour where the code depends on
    it -- property reads that yield [undefined], [for ... in] loops, calls of
    a property that is no function, the strict-mode rules of a class body. *)

From stdpp Require Import base list strings pretty.
From Stdlib Require Import ZArith Permutation Lia.

Local Open Scope string_scope.
Local Open Scope Z_scope.
Local Open Scope list_scope.

(** ** JavaScript values the session computes with *)

(** What reading a numeric property gives: a number, or [undefined] when the
    object has no such property. *)
Inductive PropValue : Type :=
| JUndefined
| JNumber (z : Z).

(** [ToBoolean]: [undefined], [null], [0] and the empty string are falsy. *)
Definition truthy (v : PropValue) : bool :=
  match v with
  | JUndefined => false
  | JNumber z => negb (z =? 0)
  end.

Definition truthy_num (z : Z) : bool := negb (z =? 0).

(** Numbers are doubles.  The session's numbers are integers, and [Z] holds
    them; arithmetic on them rounds.  [round_double z] is the double nearest
    to the integer [z], a tie going to the even mantissa: below [2 ^ 53]
    every integer is a double, from there on the doubles lie [2 ^ e] apart.
    (Nothing is said of integers beyond the largest double.) *)
Definition round_double (z : Z) : Z :=
  let m := Z.abs z in
  if m <? 2 ^ 53 then z
  else
    let e := Z.log2 m - 52 in
    let q := m / 2 ^ e in
    let r := m mod 2 ^ e in
    let half := 2 ^ (e - 1) in
    let q' := if (half <? r) || ((r =? half) && Z.odd q) then q + 1 else q in
    Z.sgn z * (q' * 2 ^ e).

(** [x--]: one less, as a double. *)
Definition js_pred (z : Z) : Z := round_double (z - 1).

(** [x + y] on numbers. *)
Definition js_add (x y : Z) : Z := round_double (x + y).

Definition truthy_str (s : option string) : bool :=
  match s with
  | None => false
  | Some s => negb (String.eqb s "")
  end.

(** [v > z]: a comparison with [undefined] is a comparison with NaN. *)
Definition js_gt (v : PropValue) (z : Z) : bool :=
  match v with
  | JUndefined => false
  | JNumber x => z <? x
  end.

(** [v === z] for a number [z]. *)
Definition strict_eq_num (v : PropValue) (z : Z) : bool :=
  match v with
  | JUndefined => false
  | JNumber x => x =? z
  end.

(** [a === b] on values that are a string, or [null]/[undefined] ([None]). *)
Definition strict_eq_str (a b : option string) : bool :=
  match a, b with
  | Some x, Some y => String.eqb x y
  | None, None => true
  | _, _ => false
  end.

(** Arrays are lists.  The one numeric property of an Array is [length];
    reading a name that neither the Array nor [Array.prototype] has -- [size]
    is the property of Map and Set -- gives [undefined]. *)
Module Array.
Definition prop {A : Type} (name : string) (a : list A) : PropValue :=
  if String.eqb name "length" then JNumber (Z.of_nat (List.length a))
  else JUndefined.

(** [a.pop()] removes the last element; on an empty array it does nothing. *)
Definition pop {A : Type} (a : list A) : list A := removelast a.

(** [a[a.length - 1]] *)
Definition top {A : Type} (a : list A) : option A := last a.

(** [a.shift()] removes the first element. *)
Definition shift {A : Type} (a : list A) : option A * list A :=
  (head a, tail a).
End Array.

(** A [Map] with string keys: the entries in insertion order.  [set] on a key
    that is present replaces the value in place, on a new key it appends. *)
Module JSMap.
Definition t (V : Type) : Type := list (string * V).

Section Ops.
Context {V : Type}.

Fixpoint get (k : string) (m : t V) : option V :=
  match m with
  | [] => None
  | (k', v) :: m' => if String.eqb k k' then Some v else get k m'
  end.

Definition has (k : string) (m : t V) : bool :=
  match get k m with
  | Some _ => true
  | None => false
  end.

Fixpoint set (k : string) (v : V) (m : t V) : t V :=
  match m with
  | [] => [(k, v)]
  | (k', v') :: m' =>
      if String.eqb k k' then (k', v) :: m' else (k', v') :: set k v m'
  end.

Definition delete (k : string) (m : t V) : t V :=
  List.filter (fun kv => negb (String.eqb k (fst kv))) m.

Definition keys (m : t V) : list string := map fst m.
Definition values (m : t V) : list V := map snd m.

(** The one numeric property of a Map is [size]. *)
Definition prop (name : string) (m : t V) : PropValue :=
  if String.eqb name "size" then JNumber (Z.of_nat (List.length m))
  else JUndefined.

(** Lookup with a key that may be [null].  The keys of the maps modelled
    here are strings (ids of players and of teams), so [null] is not among
    them and the lookup gives [undefined]. *)
Definition get_js (k : option string) (m : t V) : option V :=
  match k with
  | Some k => get k m
  | None => None
  end.

(** Writing to the object found under a key: the entry keeps its place. *)
Definition set_js (k : option string) (v : V) (m : t V) : t V :=
  match k with
  | Some k => set k v m
  | None => m
  end.
End Ops.
End JSMap.

(** ** The records the session holds *)

(** References to User objects: the registry stores the caller's object, and
    the session writes to it. *)
Abbreviation ref := nat (only parsing).

(** Modelled from the spec: the User record (the class of the objects passed to
    [addPlayer] is not among the sources).  The fields are those the session
    reads and writes: identity, display name, font, team assignment, the list
    of submitted entries and the cached readiness flag. *)
Module User.
Record t : Type := mk {
  id : string;
  name : option string;
  font : option string;
  teamId : option string;
  entries : list string;
  isReady : bool
}.

Definition set_name (v : option string) (u : t) : t :=
  mk (id u) v (font u) (teamId u) (entries u) (isReady u).
Definition set_font (v : option string) (u : t) : t :=
  mk (id u) (name u) v (teamId u) (entries u) (isReady u).
Definition set_teamId (v : option string) (u : t) : t :=
  mk (id u) (name u) (font u) v (entries u) (isReady u).
Definition set_entries (v : list string) (u : t) : t :=
  mk (id u) (name u) (font u) (teamId u) v (isReady u).
Definition set_isReady (v : bool) (u : t) : t :=
  mk (id u) (name u) (font u) (teamId u) (entries u) v.
End User.

(** Modelled from the spec: the Team record (its class is not among the
    sources): identity, display name and cumulative score.  The identity is
    a string; a team whose [id] is [null] or missing is not modelled, so the
    Team Registry has string keys only. *)
Module Team.
Record t : Type := mk {
  id : string;
  name : string;
  score : Z
}.

Definition set_score (v : Z) (x : t) : t := mk (id x) (name x) v.
End Team.

(** An element of [turnOrder]: the object literal [{teamId, players}] that
    [_randomizeTurnOrder] builds.  [teamId] is what [team.id] evaluated to,
    which may be [undefined]. *)
Module Turn.
Record t : Type := mk {
  teamId : option string;
  players : list string
}.

Definition set_players (v : list string) (e : t) : t := mk (teamId e) v.
End Turn.

(** The fields of [Game] that its methods read or write.  [id], [path] and
    [createdAt] are set by the constructor and never touched again.
    [updatedAt] is a wall-clock time in the source; here it is the number of
    saves so far.  [timer] is the handle [setInterval] returned, [None]
    before the first [_startTimer]. *)
Record Game : Type := mkGame {
  master : option string;
  players : JSMap.t ref;
  removedPlayers : JSMap.t string;
  teams : JSMap.t Team.t;
  entriesPerPlayer : Z;
  entries : list string;
  turnOrder : list Turn.t;
  isStarted : bool;
  isFinished : bool;
  turnTime : Z;
  scorePerEntry : Z;
  entriesRemaining : list string;
  roundStarted : bool;
  roundFinished : bool;
  turnStarted : bool;
  turnFinished : bool;
  turnTimeLeft : Z;
  timer : option nat;
  updatedAt : nat
}.

Definition set_master (v : option string) (g : Game) : Game :=
  mkGame v (players g) (removedPlayers g) (teams g) (entriesPerPlayer g)
    (entries g) (turnOrder g) (isStarted g) (isFinished g) (turnTime g)
    (scorePerEntry g) (entriesRemaining g) (roundStarted g) (roundFinished g)
    (turnStarted g) (turnFinished g) (turnTimeLeft g) (timer g)
    (updatedAt g).
Definition set_players (v : JSMap.t ref) (g : Game) : Game :=
  mkGame (master g) v (removedPlayers g) (teams g) (entriesPerPlayer g)
    (entries g) (turnOrder g) (isStarted g) (isFinished g) (turnTime g)
    (scorePerEntry g) (entriesRemaining g) (roundStarted g) (roundFinished g)
    (turnStarted g) (turnFinished g) (turnTimeLeft g) (timer g)
    (updatedAt g).
Definition set_removedPlayers (v : JSMap.t string) (g : Game) : Game :=
  mkGame (master g) (players g) v (teams g) (entriesPerPlayer g) (entries g)
    (turnOrder g) (isStarted g) (isFinished g) (turnTime g) (scorePerEntry g)
    (entriesRemaining g) (roundStarted g) (roundFinished g) (turnStarted g)
    (turnFinished g) (turnTimeLeft g) (timer g) (updatedAt g).
Definition set_teams (v : JSMap.t Team.t) (g : Game) : Game :=
  mkGame (master g) (players g) (removedPlayers g) v (entriesPerPlayer g)
    (entries g) (turnOrder g) (isStarted g) (isFinished g) (turnTime g)
    (scorePerEntry g) (entriesRemaining g) (roundStarted g) (roundFinished g)
    (turnStarted g) (turnFinished g) (turnTimeLeft g) (timer g)
    (updatedAt g).
Definition set_entriesPerPlayer (v : Z) (g : Game) : Game :=
  mkGame (master g) (players g) (removedPlayers g) (teams g) v (entries g)
    (turnOrder g) (isStarted g) (isFinished g) (turnTime g) (scorePerEntry g)
    (entriesRemaining g) (roundStarted g) (roundFinished g) (turnStarted g)
    (turnFinished g) (turnTimeLeft g) (timer g) (updatedAt g).
Definition set_entries (v : list string) (g : Game) : Game :=
  mkGame (master g) (players g) (removedPlayers g) (teams g)
    (entriesPerPlayer g) v (turnOrder g) (isStarted g) (isFinished g)
    (turnTime g) (scorePerEntry g) (entriesRemaining g) (roundStarted g)
    (roundFinished g) (turnStarted g) (turnFinished g) (turnTimeLeft g)
    (timer g) (updatedAt g).
Definition set_turnOrder (v : list Turn.t) (g : Game) : Game :=
  mkGame (master g) (players g) (removedPlayers g) (teams g)
    (entriesPerPlayer g) (entries g) v (isStarted g) (isFinished g)
    (turnTime g) (scorePerEntry g) (entriesRemaining g) (roundStarted g)
    (roundFinished g) (turnStarted g) (turnFinished g) (turnTimeLeft g)
    (timer g) (updatedAt g).
Definition set_isStarted (v : bool) (g : Game) : Game :=
  mkGame (master g) (players g) (removedPlayers g) (teams g)
    (entriesPerPlayer g) (entries g) (turnOrder g) v (isFinished g)
    (turnTime g) (scorePerEntry g) (entriesRemaining g) (roundStarted g)
    (roundFinished g) (turnStarted g) (turnFinished g) (turnTimeLeft g)
    (timer g) (updatedAt g).
Definition set_isFinished (v : bool) (g : Game) : Game :=
  mkGame (master g) (players g) (removedPlayers g) (teams g)
    (entriesPerPlayer g) (entries g) (turnOrder g) (isStarted g) v
    (turnTime g) (scorePerEntry g) (entriesRemaining g) (roundStarted g)
    (roundFinished g) (turnStarted g) (turnFinished g) (turnTimeLeft g)
    (timer g) (updatedAt g).
Definition set_turnTime (v : Z) (g : Game) : Game :=
  mkGame (master g) (players g) (removedPlayers g) (teams g)
    (entriesPerPlayer g) (entries g) (turnOrder g) (isStarted g)
    (isFinished g) v (scorePerEntry g) (entriesRemaining g) (roundStarted g)
    (roundFinished g) (turnStarted g) (turnFinished g) (turnTimeLeft g)
    (timer g) (updatedAt g).
Definition set_scorePerEntry (v : Z) (g : Game) : Game :=
  mkGame (master g) (players g) (removedPlayers g) (teams g)
    (entriesPerPlayer g) (entries g) (turnOrder g) (isStarted g)
    (isFinished g) (turnTime g) v (entriesRemaining g) (roundStarted g)
    (roundFinished g) (turnStarted g) (turnFinished g) (turnTimeLeft g)
    (timer g) (updatedAt g).
Definition set_entriesRemaining (v : list string) (g : Game) : Game :=
  mkGame (master g) (players g) (removedPlayers g) (teams g)
    (entriesPerPlayer g) (entries g) (turnOrder g) (isStarted g)
    (isFinished g) (turnTime g) (scorePerEntry g) v (roundStarted g)
    (roundFinished g) (turnStarted g) (turnFinished g) (turnTimeLeft g)
    (timer g) (updatedAt g).
Definition set_roundStarted (v : bool) (g : Game) : Game :=
  mkGame (master g) (players g) (removedPlayers g) (teams g)
    (entriesPerPlayer g) (entries g) (turnOrder g) (isStarted g)
    (isFinished g) (turnTime g) (scorePerEntry g) (entriesRemaining g) v
    (roundFinished g) (turnStarted g) (turnFinished g) (turnTimeLeft g)
    (timer g) (updatedAt g).
Definition set_roundFinished (v : bool) (g : Game) : Game :=
  mkGame (master g) (players g) (removedPlayers g) (teams g)
    (entriesPerPlayer g) (entries g) (turnOrder g) (isStarted g)
    (isFinished g) (turnTime g) (scorePerEntry g) (entriesRemaining g)
    (roundStarted g) v (turnStarted g) (turnFinished g) (turnTimeLeft g)
    (timer g) (updatedAt g).
Definition set_turnStarted (v : bool) (g : Game) : Game :=
  mkGame (master g) (players g) (removedPlayers g) (teams g)
    (entriesPerPlayer g) (entries g) (turnOrder g) (isStarted g)
    (isFinished g) (turnTime g) (scorePerEntry g) (entriesRemaining g)
    (roundStarted g) (roundFinished g) v (turnFinished g) (turnTimeLeft g)
    (timer g) (updatedAt g).
Definition set_turnFinished (v : bool) (g : Game) : Game :=
  mkGame (master g) (players g) (removedPlayers g) (teams g)
    (entriesPerPlayer g) (entries g) (turnOrder g) (isStarted g)
    (isFinished g) (turnTime g) (scorePerEntry g) (entriesRemaining g)
    (roundStarted g) (roundFinished g) (turnStarted g) v (turnTimeLeft g)
    (timer g) (updatedAt g).
Definition set_turnTimeLeft (v : Z) (g : Game) : Game :=
  mkGame (master g) (players g) (removedPlayers g) (teams g)
    (entriesPerPlayer g) (entries g) (turnOrder g) (isStarted g)
    (isFinished g) (turnTime g) (scorePerEntry g) (entriesRemaining g)
    (roundStarted g) (roundFinished g) (turnStarted g) (turnFinished g) v
    (timer g) (updatedAt g).
Definition set_timer (v : option nat) (g : Game) : Game :=
  mkGame (master g) (players g) (removedPlayers g) (teams g)
    (entriesPerPlayer g) (entries g) (turnOrder g) (isStarted g)
    (isFinished g) (turnTime g) (scorePerEntry g) (entriesRemaining g)
    (roundStarted g) (roundFinished g) (turnStarted g) (turnFinished g)
    (turnTimeLeft g) v (updatedAt g).
Definition set_updatedAt (v : nat) (g : Game) : Game :=
  mkGame (master g) (players g) (removedPlayers g) (teams g)
    (entriesPerPlayer g) (entries g) (turnOrder g) (isStarted g)
    (isFinished g) (turnTime g) (scorePerEntry g) (entriesRemaining g)
    (roundStarted g) (roundFinished g) (turnStarted g) (turnFinished g)
    (turnTimeLeft g) (timer g) v.

(** [new Game()] with no data. *)
Definition new_Game : Game :=
  {| master := None; players := []; removedPlayers := []; teams := [];
     entriesPerPlayer := 0; entries := []; turnOrder := [];
     isStarted := false; isFinished := false;
     turnTime := 0; scorePerEntry := 1;
     entriesRemaining := []; roundStarted := false; roundFinished := false;
     turnStarted := false; turnFinished := false; turnTimeLeft := 0;
     timer := None; updatedAt := 0 |}.

(** The argument of an emitted signal. *)
Inductive Payload : Type :=
| NoArgs
| OfUser (user : ref)
| OfTeam (team : Team.t)
| OfId (id : string).

Definition Event : Type := (string * Payload)%type.

(** ** State and exceptions *)

(** A method runs on the state and either returns or throws; what it wrote
    before a throw stays written. *)
Inductive Completion (S A : Type) : Type :=
| Normal (a : A) (s : S)
| Abrupt (e : string) (s : S).
Arguments Normal {S A} a s.
Arguments Abrupt {S A} e s.

Definition M (S A : Type) : Type := S -> Completion S A.

Definition ret {S A : Type} (a : A) : M S A := fun s => Normal a s.

Definition bind {S A B : Type} (c : M S A) (k : A -> M S B) : M S B :=
  fun s =>
    match c s with
    | Normal a s' => k a s'
    | Abrupt e s' => Abrupt e s'
    end.

Definition throw {S A : Type} (e : string) : M S A := fun s => Abrupt e s.
Definition gets {S A : Type} (f : S -> A) : M S A := fun s => Normal (f s) s.
Definition modify {S : Type} (f : S -> S) : M S unit := fun s => Normal tt (f s).

Declare Scope js_scope.
Delimit Scope js_scope with js.
Notation "x <- c ;; k" := (bind c (fun x => k))
  (at level 100, c at next level, right associativity) : js_scope.
Notation "c ;; k" := (bind c (fun _ => k))
  (at level 100, right associativity) : js_scope.

(** The state a completion ends in, however it ends. *)
Definition final {S A : Type} (c : Completion S A) : S :=
  match c with
  | Normal _ s => s
  | Abrupt _ s => s
  end.

Definition threw {S A : Type} (c : Completion S A) : bool :=
  match c with
  | Normal _ _ => false
  | Abrupt _ _ => true
  end.

(** ** What the session requires from outside *)

(** [require('../lib/shuffle')]: the module is not among the sources.  It is
    called on an array, which it reorders in place and returns, drawing on a
    random source.  Its contract is the one the specification asks of it: the
    result is a permutation of the argument. *)
Class Shuffle : Type := {
  Rng : Type;
  shuffle : forall {A : Type}, list A -> Rng -> list A * Rng;
  shuffle_Permutation :
    forall (A : Type) (l : list A) (g : Rng), Permutation l (fst (shuffle l g))
}.

(** What [user.entries.size] evaluates to: the collection behind
    [user.entries] is declared by the User class. *)
Class EntryList : Type := {
  entries_size : list string -> PropValue
}.

(** A plain Array: [push] appends, and there is no [size]. *)
Definition EntryList_Array : EntryList := {| entries_size := Array.prop "size" |}.

(** A collection that reports its element count as [size]. *)
Definition EntryList_counted : EntryList :=
  {| entries_size := fun a => JNumber (Z.of_nat (List.length a)) |}.

(** A shuffle that reverses, with no random state: enough to run examples. *)
Definition Shuffle_rev : Shuffle :=
  {| Rng := unit;
     shuffle := fun A l g => (rev l, g);
     shuffle_Permutation := fun A l g => Permutation_rev l |}.

(** ** The session and its surroundings *)

Section Session.
Context {SH : Shuffle} {EL : EntryList}.

(** The Game object together with what it reaches and what it draws on: the
    User objects (by reference), the intervals the timer functions of the host
    keep alive, the random source, and the signals emitted so far. *)
Record World : Type := mkWorld {
  this : Game;
  heap : list User.t;
  intervals : list nat;
  timerSeq : nat;
  rng : Rng;
  emitted : list Event
}.

Definition set_this (v : Game) (w : World) : World :=
  mkWorld v (heap w) (intervals w) (timerSeq w) (rng w) (emitted w).
Definition set_heap (v : list User.t) (w : World) : World :=
  mkWorld (this w) v (intervals w) (timerSeq w) (rng w) (emitted w).
Definition set_intervals (v : list nat) (w : World) : World :=
  mkWorld (this w) (heap w) v (timerSeq w) (rng w) (emitted w).
Definition set_timerSeq (v : nat) (w : World) : World :=
  mkWorld (this w) (heap w) (intervals w) v (rng w) (emitted w).
Definition set_rng (v : Rng) (w : World) : World :=
  mkWorld (this w) (heap w) (intervals w) (timerSeq w) v (emitted w).
Definition set_emitted (v : list Event) (w : World) : World :=
  mkWorld (this w) (heap w) (intervals w) (timerSeq w) (rng w) v.

Definition Js (A : Type) : Type := M World A.

Local Open Scope js_scope.

Definition getThis : Js Game := gets this.

Definition modifyThis (f : Game -> Game) : Js unit :=
  modify (fun w => set_this (f (this w)) w).

(** Reading a property of a User object; of [undefined] it is a TypeError. *)
Definition deref (user : ref) : Js User.t :=
  fun w =>
    match heap w !! user with
    | Some u => Normal u w
    | None => Abrupt "TypeError: cannot read properties of undefined" w
    end.

(** Writing a property of a User object. *)
Definition update (user : ref) (f : User.t -> User.t) : Js unit :=
  fun w =>
    match heap w !! user with
    | Some u => Normal tt (set_heap (<[user := f u]> (heap w)) w)
    | None => Abrupt "TypeError: cannot set properties of undefined" w
    end.

(** [shuffle(a)] on the session's random source. *)
Definition shuffled {A : Type} (a : list A) : Js (list A) :=
  fun w => Normal (fst (shuffle a (rng w))) (set_rng (snd (shuffle a (rng w))) w).

(** [setInterval(callback, 1000)]: a fresh handle, alive until cleared. *)
Definition setInterval : Js nat :=
  fun w =>
    Normal (timerSeq w)
      (set_timerSeq (S (timerSeq w)) (set_intervals (intervals w ++ [timerSeq w]) w)).

(** [clearInterval(h)]; clearing [undefined] or a dead handle does nothing. *)
Definition clearInterval (h : option nat) : Js unit :=
  match h with
  | Some i =>
      modify (fun w =>
        set_intervals (List.filter (fun j => negb (Nat.eqb i j)) (intervals w)) w)
  | None => ret tt
  end.

(** [for (const k in o)] runs the body on each enumerable string key of [o]. *)
Fixpoint for_in (keys : list string) (body : string -> Js unit) : Js unit :=
  match keys with
  | [] => ret tt
  | k :: keys' => body k ;; for_in keys' body
  end.

(** The enumerable keys of an Array are its indices. *)
Definition keys_of_array {A : Type} (a : list A) : list string :=
  map (fun i : nat => pretty i) (seq 0 (List.length a)).

(** A Map iterator ([m.values()]) has no enumerable property, own or
    inherited: a [for ... in] over it never runs its body. *)
Definition keys_of_iterator {A : Type} (values : list A) : list string := [].

(** [for ... in] over [undefined] does not iterate. *)
Definition keys_of_undefined : list string := [].

(** [a.every(p)] and [a.filter(p)], [a.map(f)] with callbacks that read User
    objects. *)
Fixpoint every {A : Type} (p : A -> Js bool) (a : list A) : Js bool :=
  match a with
  | [] => ret true
  | x :: a' => b <- p x ;; if b then every p a' else ret false
  end.

Fixpoint filterA {A : Type} (p : A -> Js bool) (a : list A) : Js (list A) :=
  match a with
  | [] => ret []
  | x :: a' =>
      b <- p x ;;
      rest <- filterA p a' ;;
      ret (if b then x :: rest else rest)
  end.

Fixpoint mapA {A B : Type} (f : A -> Js B) (a : list A) : Js (list B) :=
  match a with
  | [] => ret []
  | x :: a' => y <- f x ;; rest <- mapA f a' ;; ret (y :: rest)
  end.

(** *** Event handling *)

Definition save : Js unit :=
  modifyThis (fun g => set_updatedAt (S (updatedAt g)) g).

(** [emit(event, args)]: always save when emitting. *)
Definition emit (event : string) (args : Payload) : Js unit :=
  save ;;
  modify (fun w => set_emitted (emitted w ++ [(event, args)]) w).

(** *** Getters *)

Definition canStart : Js bool :=
  g <- getThis ;;
  if negb (isStarted g) then
    every (fun user =>
             u <- deref user ;;
             ret (User.isReady u && truthy_str (User.teamId u)))
          (JSMap.values (players g))
  else ret false.

Definition canStartRound (g : Game) : bool :=
  isStarted g && negb (roundStarted g)
  && truthy_num (turnTime g) && truthy_num (scorePerEntry g).

Definition canStartTurn (g : Game) : bool :=
  roundStarted g && negb (turnStarted g)
  && truthy (Array.prop "size" (entriesRemaining g)).

(** In the branches on [turnOrder.size], [turnOrder[i].teamId] and
    [turnOrder[i].players[0]] are read. *)
Definition activeTeam (g : Game) : option string :=
  if truthy (Array.prop "size" (turnOrder g))
  then turnOrder g !! 0%nat ≫= Turn.teamId
  else None.

Definition activePlayer (g : Game) : option string :=
  if truthy (Array.prop "size" (turnOrder g))
  then turnOrder g !! 0%nat ≫= (fun team => head (Turn.players team))
  else None.

Definition nextTeam (g : Game) : option string :=
  if js_gt (Array.prop "size" (turnOrder g)) 1
  then turnOrder g !! 1%nat ≫= Turn.teamId
  else None.

Definition nextPlayer (g : Game) : option string :=
  if js_gt (Array.prop "size" (turnOrder g)) 1
  then turnOrder g !! 1%nat ≫= (fun team => head (Turn.players team))
  else None.

(** [entriesRemaining] functions like a stack. *)
Definition activeEntry (g : Game) : option string :=
  Array.top (entriesRemaining g).

(** *** Private methods *)

Definition _playerIsReady (user : ref) : Js bool :=
  u <- deref user ;;
  g <- getThis ;;
  ret (truthy_str (User.name u)
       && truthy_num (entriesPerPlayer g)
       && strict_eq_num (entries_size (User.entries u)) (entriesPerPlayer g)).

Definition _checkPlayerReady (user : ref) : Js unit :=
  u <- deref user ;;
  if negb (User.isReady u) then
    ready <- _playerIsReady user ;;
    if ready then
      update user (User.set_isReady true) ;;
      emit "playerReady" (OfUser user)
    else ret tt
  else ret tt.

(** Both loops are [for ... in]: the outer one over the iterator
    [players.values()], the inner one over [user.entries], where [user] is a
    property key. *)
Definition _fillEntries : Js unit :=
  g <- getThis ;;
  for_in (keys_of_iterator (JSMap.values (players g))) (fun user =>
    for_in keys_of_undefined (fun entry =>
      modifyThis (fun g => set_entries (entries g ++ [entry]) g))).

Definition _playersForTeam (teamId : option string) : Js (list ref) :=
  g <- getThis ;;
  filterA (fun user =>
             u <- deref user ;;
             ret (strict_eq_str (User.teamId u) teamId))
          (JSMap.values (players g)).

(** Again a [for ... in] over an iterator; in its body [team] is a property
    key, and [team.id] is [undefined]. *)
Definition _randomizeTurnOrder : Js unit :=
  modifyThis (set_turnOrder []) ;;
  g <- getThis ;;
  for_in (keys_of_iterator (JSMap.values (teams g))) (fun team =>
    members <- _playersForTeam None ;;
    ids <- mapA (fun user => u <- deref user ;; ret (User.id u)) members ;;
    ids <- shuffled ids ;;
    modifyThis (fun g => set_turnOrder (turnOrder g ++ [Turn.mk None ids]) g)) ;;
  g <- getThis ;;
  order <- shuffled (turnOrder g) ;;
  modifyThis (set_turnOrder order).

Definition _randomizeEntries : Js unit :=
  g <- getThis ;;
  modifyThis (set_entriesRemaining (entries g)) ;;
  g <- getThis ;;
  a <- shuffled (entriesRemaining g) ;;
  modifyThis (set_entriesRemaining a).

Definition _score : Js unit :=
  g <- getThis ;;
  match JSMap.get_js (activeTeam g) (teams g) with
  | Some team =>
      let team := Team.set_score (js_add (Team.score team) (scorePerEntry g)) team in
      modifyThis (fun g => set_teams (JSMap.set_js (activeTeam g) team (teams g)) g) ;;
      emit "teamScored" (OfTeam team)
  | None => ret tt
  end.

(** The elements of [turnOrder] are object literals with the properties
    [teamId] and [players]; they have no [push] (neither has
    [Object.prototype]).  [team.push(x)] reads [undefined] for the callee,
    evaluates the argument and then throws. *)
Definition Turn_push (team : Turn.t) (x : option string) : Js unit :=
  throw "TypeError: team.push is not a function".

Definition _shiftTurn : Js unit :=
  g <- getThis ;;
  let (team, rest) := Array.shift (turnOrder g) in
  modifyThis (set_turnOrder rest) ;;
  match team with
  | None => throw "TypeError: cannot read properties of undefined"
  | Some team =>
      let (front, others) := Array.shift (Turn.players team) in
      let team := Turn.set_players others team in
      Turn_push team front ;;
      modifyThis (fun g => set_turnOrder (turnOrder g ++ [team]) g)
  end.

(** *** Public methods *)

Definition addPlayer (user : ref) (isMaster : bool) : Js unit :=
  u <- deref user ;;
  g <- getThis ;;
  if negb (JSMap.has (User.id u) (players g)) then
    modifyThis (fun g => set_players (JSMap.set (User.id u) user (players g)) g) ;;
    (if isMaster then modifyThis (set_master (Some (User.id u))) else ret tt) ;;
    emit "playerAdded" (OfUser user)
  else ret tt.

(** In the methods below, [players.has(userId)] followed by
    [players.get(userId)] is one lookup. *)
Definition setPlayerName (userId : string) (name : option string) : Js unit :=
  g <- getThis ;;
  match JSMap.get userId (players g) with
  | Some user =>
      update user (User.set_name name) ;;
      emit "playerNameSet" (OfUser user) ;;
      _checkPlayerReady user
  | None => ret tt
  end.

Definition setFont (userId : string) (font : option string) : Js unit :=
  g <- getThis ;;
  match JSMap.get userId (players g) with
  | Some user =>
      update user (User.set_font font) ;;
      emit "playerFontSet" (OfUser user)
  | None => ret tt
  end.

Definition removePlayer (userId : string) (byHimself : bool) : Js unit :=
  g <- getThis ;;
  if JSMap.has userId (players g)
     && negb (strict_eq_str (activePlayer g) (Some userId))
  then
    modifyThis (fun g => set_players (JSMap.delete userId (players g)) g) ;;
    modifyThis (fun g =>
      set_turnOrder
        (map (fun team =>
                Turn.set_players
                  (List.filter (fun id => negb (String.eqb id userId))
                               (Turn.players team))
                  team)
             (turnOrder g))
        g) ;;
    g <- getThis ;;
    (if strict_eq_str (Some userId) (master g) && truthy (JSMap.prop "size" (players g))
     then
       match JSMap.values (players g) with
       | first :: _ =>
           u <- deref first ;;
           modifyThis (set_master (Some (User.id u)))
       | [] => throw "TypeError: cannot read properties of undefined"
       end
     else ret tt) ;;
    if byHimself then emit "playerLeft" (OfId userId)
    else
      modifyThis (fun g =>
        set_removedPlayers (JSMap.set userId userId (removedPlayers g)) g) ;;
      emit "playerRemoved" (OfId userId)
  else ret tt.

Definition setEntriesPerPlayer (n : Z) : Js unit :=
  modifyThis (set_entriesPerPlayer n) ;;
  emit "entriesPerPlayerUpdated" NoArgs.

Definition addEntry (userId : string) (entry : string) : Js unit :=
  g <- getThis ;;
  match JSMap.get userId (players g) with
  | Some user =>
      update user (fun u => User.set_entries (User.entries u ++ [entry]) u) ;;
      _checkPlayerReady user
  | None => ret tt
  end.

Definition addTeam (team : Team.t) : Js unit :=
  modifyThis (fun g => set_teams (JSMap.set (Team.id team) team (teams g)) g) ;;
  emit "teamAdded" (OfTeam team).

Definition addPlayerToTeam (userId teamId : string) : Js unit :=
  g <- getThis ;;
  match JSMap.get userId (players g) with
  | Some user =>
      if JSMap.has teamId (teams g) then
        update user (User.set_teamId (Some teamId)) ;;
        emit "playerAddedToTeam" (OfUser user)
      else ret tt
  | None => ret tt
  end.

(** The loop is a [for ... in] over the Array that [_playersForTeam] returns:
    [user] is an index, a string, and a class body is strict code, where
    [user.teamId = null] on a string throws. *)
Definition removeTeam (teamId : string) : Js unit :=
  g <- getThis ;;
  if JSMap.has teamId (teams g)
     && negb (strict_eq_str (activeTeam g) (Some teamId))
  then
    modifyThis (fun g => set_teams (JSMap.delete teamId (teams g)) g) ;;
    modifyThis (fun g =>
      set_turnOrder
        (List.filter
           (fun team => negb (strict_eq_str (Turn.teamId team) (Some teamId)))
           (turnOrder g))
        g) ;;
    members <- _playersForTeam (Some teamId) ;;
    for_in (keys_of_array members) (fun user =>
      throw "TypeError: cannot create property 'teamId' on string") ;;
    emit "teamRemoved" (OfId teamId)
  else ret tt.

Definition setTurnTime (n : Z) : Js unit :=
  modifyThis (set_turnTime n) ;;
  emit "turnTimeUpdated" NoArgs.

Definition startRound : Js unit :=
  g <- getThis ;;
  if canStartRound g then
    _randomizeTurnOrder ;;
    _randomizeEntries ;;
    modifyThis (fun g => set_turnTimeLeft (turnTime g) g) ;;
    modifyThis (set_roundStarted true) ;;
    emit "roundStarted" NoArgs
  else ret tt.

Definition start : Js unit :=
  ok <- canStart ;;
  if ok then
    _fillEntries ;;
    modifyThis (set_isStarted true) ;;
    emit "started" NoArgs ;;
    startRound
  else ret tt.

Definition finishRound : Js unit :=
  g <- getThis ;;
  clearInterval (timer g) ;;
  modifyThis (set_roundFinished true) ;;
  emit "roundFinished" NoArgs.

Definition nextEntry : Js unit :=
  _score ;;
  modifyThis (fun g => set_entriesRemaining (Array.pop (entriesRemaining g)) g) ;;
  g <- getThis ;;
  if truthy (Array.prop "size" (entriesRemaining g))
  then emit "nextEntry" NoArgs
  else finishRound.

Definition finishTurn : Js unit :=
  modifyThis (set_turnFinished true) ;;
  _randomizeEntries ;;
  emit "turnFinished" NoArgs.

Definition nextTurn : Js unit :=
  _shiftTurn ;;
  modifyThis (set_turnStarted false) ;;
  modifyThis (set_turnFinished false) ;;
  modifyThis (fun g => set_turnTimeLeft (turnTime g) g) ;;
  emit "nextTurn" NoArgs.

Definition nextRound : Js unit :=
  modifyThis (set_roundStarted false) ;;
  modifyThis (set_roundFinished false) ;;
  modifyThis (fun g => set_turnTimeLeft (turnTime g) g) ;;
  emit "nextRound" NoArgs.

Definition finish : Js unit :=
  modifyThis (set_isFinished true) ;;
  emit "finished" NoArgs.

(** *** The countdown *)

Definition _startTimer : Js unit :=
  h <- setInterval ;;
  modifyThis (set_timer (Some h)).

(** The callback [_startTimer] hands to [setInterval], run by the host once a
    second for as long as the interval [h] is alive. *)
Definition tick (h : nat) : Js unit :=
  fun w =>
    if existsb (Nat.eqb h) (intervals w) then
      (modifyThis (fun g => set_turnTimeLeft (js_pred (turnTimeLeft g)) g) ;;
       g <- getThis ;;
       if turnTimeLeft g =? 0 then
         clearInterval (timer g) ;;
         finishTurn
       else ret tt) w
    else Normal tt w.

Definition startTurn : Js unit :=
  g <- getThis ;;
  if canStartTurn g then
    _startTimer ;;
    modifyThis (set_turnStarted true) ;;
    emit "turnStarted" NoArgs
  else ret tt.

(** ** Sessions as sequences of commands *)

(** [new User(...)] in the caller: a new object, with whatever the caller
    put in it. *)
Definition newUser (u : User.t) : Js ref :=
  fun w => Normal (List.length (heap w)) (set_heap (heap w ++ [u]) w).

Inductive Command : Type :=
| NewUser (u : User.t)
| AddPlayer (user : ref) (isMaster : bool)
| SetPlayerName (userId : string) (name : option string)
| SetFont (userId : string) (font : option string)
| RemovePlayer (userId : string) (byHimself : bool)
| SetEntriesPerPlayer (n : Z)
| AddEntry (userId : string) (entry : string)
| AddTeam (team : Team.t)
| AddPlayerToTeam (userId teamId : string)
| RemoveTeam (teamId : string)
| SetTurnTime (n : Z)
| Start
| StartRound
| StartTurn
| NextEntry
| FinishTurn
| NextTurn
| FinishRound
| NextRound
| Finish
| Tick (h : nat).

Definition exec (c : Command) : Js unit :=
  match c with
  | NewUser u => newUser u ;; ret tt
  | AddPlayer user isMaster => addPlayer user isMaster
  | SetPlayerName userId name => setPlayerName userId name
  | SetFont userId font => setFont userId font
  | RemovePlayer userId byHimself => removePlayer userId byHimself
  | SetEntriesPerPlayer n => setEntriesPerPlayer n
  | AddEntry userId entry => addEntry userId entry
  | AddTeam team => addTeam team
  | AddPlayerToTeam userId teamId => addPlayerToTeam userId teamId
  | RemoveTeam teamId => removeTeam teamId
  | SetTurnTime n => setTurnTime n
  | Start => start
  | StartRound => startRound
  | StartTurn => startTurn
  | NextEntry => nextEntry
  | FinishTurn => finishTurn
  | NextTurn => nextTurn
  | FinishRound => finishRound
  | NextRound => nextRound
  | Finish => finish
  | Tick h => tick h
  end.

(** A caller that goes on after an exception goes on from the state the
    throwing method left. *)
Fixpoint run (cs : list Command) (w : World) : World :=
  match cs with
  | [] => w
  | c :: cs' => run cs' (final (exec c w))
  end.

(** A fresh session: [new Game()], no User object yet, no interval, no
    signal. *)
Definition new_World (g : Rng) : World :=
  {| this := new_Game; heap := []; intervals := []; timerSeq := 0;
     rng := g; emitted := [] |}.

Inductive reachable : World -> Prop :=
| reachable_new (g : Rng) : reachable (new_World g)
| reachable_exec (c : Command) (w : World) :
    reachable w -> reachable (final (exec c w)).

End Session.

(** ** Views *)

(** The getters [user.data] and [team.data] are declared by the User and Team
    classes, which are not among the sources: what they return is left
    open. *)
Class DataGetters : Type := {
  UserData : Type;
  user_data : User.t -> UserData;
  TeamData : Type;
  team_data : Team.t -> TeamData
}.

Section Views.
Context {SH : Shuffle} {DG : DataGetters}.

Local Open Scope js_scope.

(** The object the getter [data] builds, with the three properties
    [dataForUser] may add to it ([None]: the property is absent).  The
    [path] of the session, a constant of the constructor, is left out. *)
Record GameData : Type := mkGameData {
  d_players : list UserData;
  d_teams : list TeamData;
  d_master : option string;
  d_entriesPerPlayer : Z;
  d_turnOrder : list Turn.t;
  d_isStarted : bool;
  d_isFinished : bool;
  d_turnTime : Z;
  d_scorePerEntry : Z;
  d_roundStarted : bool;
  d_roundFinished : bool;
  d_activeTeam : option string;
  d_activePlayer : option string;
  d_turnStarted : bool;
  d_turnFinished : bool;
  d_turnTimeLeft : Z;
  d_nextTeam : option string;
  d_nextPlayer : option string;
  d_font : option (option string);
  d_entries : option (list string);
  d_activeEntry : option (option string)
}.

Definition set_d_font (v : option (option string)) (d : GameData) : GameData :=
  mkGameData (d_players d) (d_teams d) (d_master d) (d_entriesPerPlayer d)
    (d_turnOrder d) (d_isStarted d) (d_isFinished d) (d_turnTime d)
    (d_scorePerEntry d) (d_roundStarted d) (d_roundFinished d)
    (d_activeTeam d) (d_activePlayer d) (d_turnStarted d) (d_turnFinished d)
    (d_turnTimeLeft d) (d_nextTeam d) (d_nextPlayer d) v (d_entries d)
    (d_activeEntry d).
Definition set_d_entries (v : option (list string)) (d : GameData) : GameData :=
  mkGameData (d_players d) (d_teams d) (d_master d) (d_entriesPerPlayer d)
    (d_turnOrder d) (d_isStarted d) (d_isFinished d) (d_turnTime d)
    (d_scorePerEntry d) (d_roundStarted d) (d_roundFinished d)
    (d_activeTeam d) (d_activePlayer d) (d_turnStarted d) (d_turnFinished d)
    (d_turnTimeLeft d) (d_nextTeam d) (d_nextPlayer d) (d_font d) v
    (d_activeEntry d).
Definition set_d_activeEntry (v : option (option string)) (d : GameData) : GameData :=
  mkGameData (d_players d) (d_teams d) (d_master d) (d_entriesPerPlayer d)
    (d_turnOrder d) (d_isStarted d) (d_isFinished d) (d_turnTime d)
    (d_scorePerEntry d) (d_roundStarted d) (d_roundFinished d)
    (d_activeTeam d) (d_activePlayer d) (d_turnStarted d) (d_turnFinished d)
    (d_turnTimeLeft d) (d_nextTeam d) (d_nextPlayer d) (d_font d)
    (d_entries d) v.

Definition playerData : Js (list UserData) :=
  g <- getThis ;;
  mapA (fun user => u <- deref user ;; ret (user_data u))
       (JSMap.values (players g)).

Definition teamData : Js (list TeamData) :=
  g <- getThis ;;
  ret (map team_data (JSMap.values (teams g))).

Definition data : Js GameData :=
  ps <- playerData ;;
  ts <- teamData ;;
  g <- getThis ;;
  ret {| d_players := ps;
         d_teams := ts;
         d_master := master g;
         d_entriesPerPlayer := entriesPerPlayer g;
         d_turnOrder := turnOrder g;
         d_isStarted := isStarted g;
         d_isFinished := isFinished g;
         d_turnTime := turnTime g;
         d_scorePerEntry := scorePerEntry g;
         d_roundStarted := roundStarted g;
         d_roundFinished := roundFinished g;
         d_activeTeam := activeTeam g;
         d_activePlayer := activePlayer g;
         d_turnStarted := turnStarted g;
         d_turnFinished := turnFinished g;
         d_turnTimeLeft := turnTimeLeft g;
         d_nextTeam := nextTeam g;
         d_nextPlayer := nextPlayer g;
         d_font := None;
         d_entries := None;
         d_activeEntry := None |}.

Definition dataForUser (userId : string) : Js GameData :=
  gameData <- data ;;
  g <- getThis ;;
  match JSMap.get userId (players g) with
  | Some user =>
      u <- deref user ;;
      let gameData := set_d_font (Some (User.font u)) gameData in
      let gameData := set_d_entries (Some (User.entries u)) gameData in
      if strict_eq_str (activePlayer g) (Some userId)
      then ret (set_d_activeEntry (Some (activeEntry g)) gameData)
      else ret gameData
  | None => ret gameData
  end.

End Views.


(** ** What the properties speak of *)

Section Observations.
Context {SH : Shuffle}.

(** Every registered User object has its [isReady] flag set and a truthy
    [teamId]: what the callback of [canStart] tests. *)
Definition players_flagged (w : World) : bool :=
  forallb (fun user =>
             match heap w !! user with
             | Some u => User.isReady u && truthy_str (User.teamId u)
             | None => false
             end)
          (JSMap.values (players (this w))).

(** The [id] fields of the registered User objects, in registry order. *)
Definition registered_ids (w : World) : list string :=
  omap (fun user => User.id <$> heap w !! user) (JSMap.values (players (this w))).

(** The registry is keyed by the [id] of the object it holds. *)
Definition registry_keyed (w : World) : Prop :=
  forall (k : string) (user : ref),
    In (k, user) (players (this w)) ->
    exists u, heap w !! user = Some u /\ User.id u = k.

Definition is_playerReady (user : ref) (e : Event) : bool :=
  match e with
  | (name, OfUser r) => String.eqb name "playerReady" && Nat.eqb r user
  | _ => false
  end.

(** How often [playerReady] was emitted for a User object. *)
Definition count_playerReady (user : ref) (log : list Event) : nat :=
  List.length (List.filter (is_playerReady user) log).

(** A User object that may still become ready: not yet created, or created
    and not flagged. *)
Definition may_become_ready (user : ref) (w : World) : nat :=
  match heap w !! user with
  | Some u => if User.isReady u then 0 else 1
  | None => 1
  end.

(** What [start()] does once its guard has passed, up to the call of
    [startRound()]. *)
Definition started_world (w : World) : World :=
  set_emitted (emitted w ++ [("started", NoArgs)])
    (set_this (set_updatedAt (S (updatedAt (this w)))
                 (set_isStarted true (this w))) w).

(** The registry has no key twice and is keyed by the ids of its objects. *)
Definition registry_ok (w : World) : Prop :=
  List.NoDup (JSMap.keys (players (this w))) /\ registry_keyed w.

(** [R] relates the state before every run of [c] to the state after it,
    however the run ends. *)
Definition always {A : Type} (R : World -> World -> Prop) (c : M World A) : Prop :=
  forall w, R w (final (c w)).

Class Frame (R : World -> World -> Prop) : Prop := {
  frame_refl : forall w, R w w;
  frame_trans : forall w1 w2 w3, R w1 w2 -> R w2 w3 -> R w1 w3
}.

(** The User objects stay, keep their [id], keep a set [isReady]; and for
    each of them the number of [playerReady] signals so far, plus one if it
    may still become ready, does not grow. *)
Definition latched (w w' : World) : Prop :=
  (forall (user : ref) (u : User.t),
      heap w !! user = Some u ->
      exists u', heap w' !! user = Some u'
                 /\ User.id u' = User.id u
                 /\ (User.isReady u = true -> User.isReady u' = true))
  /\ (forall user : ref,
        count_playerReady user (emitted w') + may_become_ready user w'
        <= count_playerReady user (emitted w) + may_become_ready user w)%nat.

(** The registry is the same Map with the same entries. *)
Definition same_registry (w w' : World) : Prop :=
  players (this w') = players (this w).

(** Every reference in the registry denotes a User object. *)
Definition resolves (w : World) : Prop :=
  Forall (fun user : ref => (user < List.length (heap w))%nat)
         (JSMap.values (players (this w))).

(** The registered User objects whose [teamId] is the given one: what
    [_playersForTeam] collects. *)
Definition members (teamId : option string) (w : World) : list ref :=
  List.filter (fun user =>
                 match heap w !! user with
                 | Some u => strict_eq_str (User.teamId u) teamId
                 | None => false
                 end)
              (JSMap.values (players (this w))).


(** No entries, no queue, no countdown, no turn begun. *)
Definition resting (g : Game) : Prop :=
  timer g = None /\ turnStarted g = false
  /\ entries g = [] /\ entriesRemaining g = [] /\ turnOrder g = [].

Definition at_rest (w : World) : Prop :=
  intervals w = [] /\ resting (this w).

(** From the state before to the state after: no id leaves the removed-set,
    and a session at rest stays at rest. *)
Definition calm (w w' : World) : Prop :=
  (forall k : string,
      JSMap.has k (removedPlayers (this w)) = true ->
      JSMap.has k (removedPlayers (this w')) = true)
  /\ (at_rest w -> at_rest w').

(** From the state before to the state after: no interval that was not
    alive before is alive after. *)
Definition no_new_interval (w w' : World) : Prop :=
  forall h : nat, In h (intervals w') -> In h (intervals w).

(** As many saves as signals between the two states. *)
Definition saved_with (w w' : World) : Prop :=
  (updatedAt (this w') + List.length (emitted w)
   = updatedAt (this w) + List.length (emitted w'))%nat.


End Observations.

(** ** Sample sessions *)

Module Scenario.

Definition ann : User.t := User.mk "p1" (Some "Ann") None (Some "A") ["x"] true.
Definition bob : User.t := User.mk "p2" (Some "Bob") None (Some "A") ["y"] true.
Definition cas : User.t := User.mk "p3" (Some "Cas") None (Some "B") ["z"] true.

Definition teamA : Team.t := Team.mk "A" "Team A" 0.
Definition teamB : Team.t := Team.mk "B" "Team B" 0.

(** Teams A = [p1, p2] and B = [p3] in the middle of p1's turn: the state a
    [new Game(data)] is given, two entries left on the stack, one second left
    on the clock. *)
Definition midturn_Game : Game :=
  {| master := Some "p1";
     players := [("p1", 0%nat); ("p2", 1%nat); ("p3", 2%nat)];
     removedPlayers := [];
     teams := [("A", teamA); ("B", teamB)];
     entriesPerPlayer := 1;
     entries := ["x"; "y"; "z"];
     turnOrder := [Turn.mk (Some "A") ["p1"; "p2"]; Turn.mk (Some "B") ["p3"]];
     isStarted := true; isFinished := false;
     turnTime := 30; scorePerEntry := 1;
     entriesRemaining := ["z"; "x"];
     roundStarted := true; roundFinished := false;
     turnStarted := true; turnFinished := false; turnTimeLeft := 1;
     timer := None; updatedAt := 0 |}.

(** ... with its three User objects.  The constructor restores no timer, so
    no interval runs. *)
Definition midturn : @World Shuffle_rev :=
  @mkWorld Shuffle_rev midturn_Game [ann; bob; cas] [] 0%nat tt [].


(** The same session after a call of [_startTimer()], the one place that
    makes an interval. *)
Definition ticking : @World Shuffle_rev :=
  final (@_startTimer Shuffle_rev midturn).

(** A lobby in which the quota is set after the player has written an entry
    and chosen a name. *)
Definition joiner (id : string) : User.t := User.mk id None None None [] false.

Definition lobby : list Command :=
  [NewUser (joiner "p1"); AddPlayer 0%nat true;
   AddEntry "p1" "x"; SetPlayerName "p1" (Some "Ann");
   SetEntriesPerPlayer 1;
   AddTeam teamA; AddPlayerToTeam "p1" "A"; SetTurnTime 30].

(** A fresh session. *)
Definition fresh : @World Shuffle_rev := @new_World Shuffle_rev tt.

Definition lobby_world : @World Shuffle_rev :=
  @run Shuffle_rev EntryList_counted lobby fresh.

(** A lobby in which the quota is set first: the player becomes ready on
    the name; later the quota changes. *)
Definition lobby_ready : list Command :=
  [NewUser (joiner "p1"); AddPlayer 0%nat true;
   SetEntriesPerPlayer 1;
   AddEntry "p1" "x"; SetPlayerName "p1" (Some "Ann")].


(** Two players join, and the second is removed by the master. *)
Definition eviction : list Command :=
  [NewUser (joiner "p1"); AddPlayer 0%nat true;
   NewUser (joiner "p2"); AddPlayer 1%nat false;
   RemovePlayer "p2" false].

Definition evicted_world : @World Shuffle_rev :=
  @run Shuffle_rev EntryList_counted eviction fresh.


(** The running countdown with another number of seconds on the clock. *)
Definition counting (seconds : Z) : @World Shuffle_rev :=
  @set_this Shuffle_rev (set_turnTimeLeft seconds (this ticking)) ticking.

(** Data getters that hand out the records themselves. *)
Definition DataGetters_plain : DataGetters :=
  {| UserData := User.t; user_data := fun u => u;
     TeamData := Team.t; team_data := fun t => t |}.

(** The lobby of one named player with one entry, quota 1 not yet set. *)
Definition lobby_named : @World Shuffle_rev :=
  @run Shuffle_rev EntryList_counted
    [NewUser (joiner "p1"); AddPlayer 0%nat true;
     SetPlayerName "p1" (Some "Ann"); SetEntriesPerPlayer 2;
     AddEntry "p1" "x"; AddTeam teamA]
    fresh.

End Scenario.

(** * Properties *)

(** ** Maps *)

Module JSMapFacts.
Section Facts.
Context {V : Type}.
Implicit Types (m : JSMap.t V) (k : string) (v : V).

Lemma has_get k m : JSMap.has k m = true <-> exists v, JSMap.get k m = Some v.
Proof.
  unfold JSMap.has. destruct (JSMap.get k m) as [v|]; split.
  - eauto.
  - reflexivity.
  - discriminate.
  - intros [v Hv]. discriminate.
Qed.

Lemma get_In k v m : JSMap.get k m = Some v -> In (k, v) m.
Proof.
  induction m as [|[k' v'] m IH]; cbn; [discriminate|].
  destruct (String.eqb_spec k k') as [->|Hne].
  - intros [= ->]. now left.
  - intros H. right. auto.
Qed.

Lemma has_keys k m : JSMap.has k m = true <-> In k (JSMap.keys m).
Proof.
  unfold JSMap.has. induction m as [|[k' v'] m IH]; cbn.
  - split; [discriminate|tauto].
  - destruct (String.eqb_spec k k') as [->|Hne].
    + split; auto.
    + rewrite IH. split; [auto|]. intros [H|H]; [congruence|assumption].
Qed.

Lemma In_delete k k' v m :
  In (k', v) (JSMap.delete k m) <-> In (k', v) m /\ k' <> k.
Proof.
  unfold JSMap.delete. rewrite filter_In. cbn.
  destruct (String.eqb_spec k k') as [->|Hne]; cbn; split;
    intros [H1 H2]; split; auto; congruence.
Qed.

Lemma has_delete k m : JSMap.has k (JSMap.delete k m) = false.
Proof.
  destruct (JSMap.has k (JSMap.delete k m)) eqn:E; [|reflexivity].
  apply has_get in E as [v Hv]. apply get_In, In_delete in Hv. tauto.
Qed.

Lemma keys_delete k m :
  JSMap.keys (JSMap.delete k m)
  = List.filter (fun k' => negb (String.eqb k k')) (JSMap.keys m).
Proof.
  unfold JSMap.keys, JSMap.delete.
  induction m as [|[k' v'] m IH]; cbn; [reflexivity|].
  destruct (String.eqb k k'); cbn; now rewrite IH.
Qed.

Lemma keys_set_new k v m :
  JSMap.has k m = false -> JSMap.set k v m = m ++ [(k, v)].
Proof.
  unfold JSMap.has. induction m as [|[k' v'] m IH]; cbn; [reflexivity|].
  destruct (String.eqb k k'); [discriminate|].
  intros H. now rewrite IH.
Qed.

Lemma get_set_new k v m :
  JSMap.has k m = false -> JSMap.get k (JSMap.set k v m) = Some v.
Proof.
  unfold JSMap.has. induction m as [|[k' v'] m IH]; cbn.
  - now rewrite String.eqb_refl.
  - destruct (String.eqb k k') eqn:E; [discriminate|].
    cbn. rewrite E. exact IH.
Qed.

End Facts.
End JSMapFacts.

Section Properties.
Context {SH : Shuffle} {EL : EntryList}.

Create HintDb js.
Create HintDb methods.
#[local] Hint Unfold
  bind ret gets modify throw getThis modifyThis emit save shuffled
  setInterval clearInterval : js.

Ltac run_js := autounfold with js; cbn.

(** ** Getters *)

(** C5 (as the code has it).  The four projections test [turnOrder.size], and
    [turnOrder] is an Array: the test reads [undefined], so each of them
    returns [null], whatever the Turn Order Queue holds. *)
Theorem turn_projections_null (g : Game) :
  activeTeam g = None /\ activePlayer g = None
  /\ nextTeam g = None /\ nextPlayer g = None.
Proof. repeat split. Qed.

(** ** Starting *)

Lemma every_cons {A : Type} (p : A -> Js bool) (x : A) (a : list A) (w : World) :
  every p (x :: a) w
  = match p x w with
    | Normal true w' => every p a w'
    | Normal false w' => Normal false w'
    | Abrupt e w' => Abrupt e w'
    end.
Proof.
  cbn. unfold bind. destruct (p x w) as [[|] w'|e w']; reflexivity.
Qed.

Lemma every_flagged (l : list ref) (w : World) :
  let p := fun user =>
             (u <- deref user ;;
              ret (User.isReady u && truthy_str (User.teamId u)))%js in
  let b := forallb (fun user =>
                      match heap w !! user with
                      | Some u => User.isReady u && truthy_str (User.teamId u)
                      | None => false
                      end) l in
  every p l w = Normal b w \/ (b = false /\ exists e, every p l w = Abrupt e w).
Proof.
  intros p. cbn zeta. induction l as [|user l IH].
  - now left.
  - rewrite every_cons. cbn [forallb].
    assert (Hp : p user w
                 = match heap w !! user with
                   | Some u =>
                       Normal (User.isReady u && truthy_str (User.teamId u)) w
                   | None =>
                       Abrupt "TypeError: cannot read properties of undefined" w
                   end).
    { unfold p, bind, deref, ret. now destruct (heap w !! user). }
    rewrite Hp. destruct (heap w !! user) as [u|].
    + destruct (User.isReady u && truthy_str (User.teamId u)); cbn.
      * exact IH.
      * now left.
    + right. eauto.
Qed.

Lemma canStart_unfold (w : World) :
  canStart w
  = if isStarted (this w) then Normal false w
    else every (fun user =>
                  (u <- deref user ;;
                   ret (User.isReady u && truthy_str (User.teamId u)))%js)
               (JSMap.values (players (this w))) w.
Proof. unfold canStart, bind, getThis, gets. now destruct (isStarted (this w)). Qed.

Lemma canStart_cases (w : World) :
  let b := negb (isStarted (this w)) && players_flagged w in
  canStart w = Normal b w \/ (b = false /\ exists e, canStart w = Abrupt e w).
Proof.
  cbn zeta. rewrite canStart_unfold. unfold players_flagged.
  destruct (isStarted (this w)).
  - now left.
  - exact (every_flagged (JSMap.values (players (this w))) w).
Qed.

Lemma startRound_keeps_isStarted (w : World) :
  isStarted (this (final (startRound w))) = isStarted (this w)
  /\ exists evs, emitted (final (startRound w)) = emitted w ++ evs.
Proof.
  unfold startRound, _randomizeTurnOrder, _randomizeEntries. run_js.
  destruct (canStartRound (this w)); cbn.
  - split; [reflexivity|]. eauto.
  - split; [reflexivity|]. exists []. now rewrite app_nil_r.
Qed.

Lemma start_unfold (w : World) :
  start w
  = match canStart w with
    | Normal true w' => startRound (started_world w')
    | Normal false w' => Normal tt w'
    | Abrupt e w' => Abrupt e w'
    end.
Proof.
  unfold start, bind at 1. destruct (canStart w) as [[|] w'|e w']; reflexivity.
Qed.

Lemma start_cases (w : World) :
  if negb (isStarted (this w)) && players_flagged w
  then isStarted (this (final (start w))) = true
       /\ exists evs,
            emitted (final (start w)) = emitted w ++ ("started", NoArgs) :: evs
  else final (start w) = w.
Proof.
  rewrite start_unfold.
  destruct (canStart_cases w) as [E|[Eb [e E]]]; cbn zeta in *.
  - rewrite E. destruct (negb (isStarted (this w)) && players_flagged w).
    + destruct (startRound_keeps_isStarted (started_world w)) as [H1 [evs H2]].
      rewrite H1, H2. cbn. split; [reflexivity|].
      exists evs. now rewrite <- app_assoc.
    + reflexivity.
  - rewrite E, Eb. reflexivity.
Qed.


(** ** Entries and scoring *)

Ltac break_if :=
  match goal with
  | |- context [if ?b then _ else _] => destruct b eqn:?
  | |- context [match ?x with Some _ => _ | None => _ end] => destruct x eqn:?
  | |- context [match ?x with [] => _ | _ :: _ => _ end] => destruct x eqn:?
  end; cbn.

(** C2 (as the code has it).  [_score()] looks the team up under
    [activeTeam], which is [null]: no team is found, no score changes and no
    [teamScored] is emitted.  With the stack test reading [undefined] as well,
    every [nextEntry()] ends in [finishRound()]. *)
Theorem nextEntry_credits_no_team (w : World) :
  teams (this (final (nextEntry w))) = teams (this w)
  /\ emitted (final (nextEntry w)) = emitted w ++ [("roundFinished", NoArgs)].
Proof.
  unfold nextEntry, _score, finishRound. run_js.
  destruct (timer (this w)); cbn; split; reflexivity.
Qed.

Lemma nextEntry_pops (w : World) :
  entriesRemaining (this (final (nextEntry w)))
  = Array.pop (entriesRemaining (this w)).
Proof.
  unfold nextEntry, _score, finishRound. run_js.
  destruct (timer (this w)); reflexivity.
Qed.

Lemma finishTurn_refills (w : World) :
  Permutation (entries (this w))
              (entriesRemaining (this (final (finishTurn w)))).
Proof.
  unfold finishTurn, _randomizeEntries. run_js. apply shuffle_Permutation.
Qed.

(** C3 (as the code has it).  [nextEntry()] takes the top off a stack that
    has one, and [startRound()], when its guard passes, refills the stack
    with a permutation of the master entry list.  [finishTurn()] does the
    same as [startRound()]: it refills the stack from the master entry list,
    not from what was left on the stack, so the entries already played come
    back. *)
Theorem stack_popped_and_refilled (w : World) :
  match activeEntry (this w) with
  | Some top =>
      entriesRemaining (this w)
      = entriesRemaining (this (final (nextEntry w))) ++ [top]
  | None => entriesRemaining (this (final (nextEntry w))) = []
  end
  /\ (if canStartRound (this w)
      then Permutation (entries (this w))
                       (entriesRemaining (this (final (startRound w))))
      else final (startRound w) = w)
  /\ Permutation (entries (this w))
                 (entriesRemaining (this (final (finishTurn w)))).
Proof.
  split; [|split].
  - rewrite nextEntry_pops. unfold activeEntry, Array.top, Array.pop.
    destruct (last (entriesRemaining (this w))) as [top|] eqn:E.
    + apply last_Some in E as [l' ->]. now rewrite removelast_last.
    + apply last_None in E. now rewrite E.
  - unfold startRound, _randomizeTurnOrder, _randomizeEntries. run_js.
    destruct (canStartRound (this w)); cbn.
    + apply shuffle_Permutation.
    + reflexivity.
  - apply finishTurn_refills.
Qed.

(** ** Turns *)

(** C4 (as the code has it).  [_shiftTurn()] calls [team.push], which no
    element of the queue has: [nextTurn()] throws on every queue.  By then the
    front entry has left the queue; it is not appended again, the turn flags
    and the countdown are not reset and nothing is emitted. *)
Theorem nextTurn_throws (w : World) :
  threw (nextTurn w) = true
  /\ turnOrder (this (final (nextTurn w))) = tail (turnOrder (this w))
  /\ turnStarted (this (final (nextTurn w))) = turnStarted (this w)
  /\ turnFinished (this (final (nextTurn w))) = turnFinished (this w)
  /\ turnTimeLeft (this (final (nextTurn w))) = turnTimeLeft (this w)
  /\ emitted (final (nextTurn w)) = emitted w.
Proof.
  unfold nextTurn, _shiftTurn, Turn_push. run_js.
  destruct (turnOrder (this w)); cbn; repeat split; reflexivity.
Qed.

Lemma existsb_eqb_In (h : nat) (l : list nat) :
  In h l -> existsb (Nat.eqb h) l = true.
Proof.
  intros H. apply existsb_exists. exists h. split; [assumption|].
  apply Nat.eqb_refl.
Qed.

(** C7 (amended).  Two calls of [finishTurn()] in a row are not one.  The
    first sets the flag [turnFinished] and emits [turnFinished]; the second
    emits [turnFinished] again and saves again.  What the second leaves as
    the first left it: the flag, set; the entries on the stack, possibly in
    another order; and every other field, the User objects and the
    intervals. *)
Theorem finishTurn_twice (w : World) :
  let w1 := final (finishTurn w) in
  let w2 := final (finishTurn w1) in
  emitted w1 = emitted w ++ [("turnFinished", NoArgs)]
  /\ emitted w2 = emitted w1 ++ [("turnFinished", NoArgs)]
  /\ updatedAt (this w2) = S (updatedAt (this w1))
  /\ turnFinished (this w1) = true
  /\ turnFinished (this w2) = true
  /\ Permutation (entriesRemaining (this w1)) (entriesRemaining (this w2))
  /\ set_entriesRemaining [] (set_updatedAt 0 (this w2))
     = set_entriesRemaining [] (set_updatedAt 0 (this w1))
  /\ heap w2 = heap w1
  /\ intervals w2 = intervals w1.
Proof.
  cbn zeta. repeat split.
  etransitivity; [symmetry; apply finishTurn_refills|].
  assert (E : entries (this (final (finishTurn w))) = entries (this w))
    by reflexivity.
  rewrite <- E at 1. apply finishTurn_refills.
Qed.

(** ** Players *)

Lemma removePlayer_unfold (w : World) (userId : string) (byHimself : bool) :
  JSMap.has userId (players (this w)) = true ->
  let g := set_turnOrder
             (map (fun team =>
                     Turn.set_players
                       (List.filter (fun id => negb (String.eqb id userId))
                                    (Turn.players team))
                       team)
                  (turnOrder (this w)))
             (set_players (JSMap.delete userId (players (this w))) (this w)) in
  exists g',
    this (final (removePlayer userId byHimself w)) = g'
    /\ players g' = players g /\ turnOrder g' = turnOrder g
    /\ heap (final (removePlayer userId byHimself w)) = heap w.
Proof.
  intros H. cbn zeta. unfold removePlayer. run_js. rewrite H. cbn.
  unfold deref.
  repeat break_if; eexists; repeat split.
Qed.

Lemma removePlayer_unknown (w : World) (userId : string) (byHimself : bool) :
  JSMap.has userId (players (this w)) = false ->
  removePlayer userId byHimself w = Normal tt w.
Proof.
  intros H. unfold removePlayer. run_js. now rewrite H.
Qed.

(** C9 (as the code has it).  The guard of [removePlayer] compares the id
    with [activePlayer], which is [null]: every registered id passes it, the
    active player's as well, and is removed from the registry and from every
    rotation list. *)
Theorem removePlayer_removes_any (w : World) (userId : string) (byHimself : bool) :
  JSMap.has userId (players (this w)) = true ->
  let w' := final (removePlayer userId byHimself w) in
  JSMap.has userId (players (this w')) = false
  /\ Forall (fun team => ~ In userId (Turn.players team)) (turnOrder (this w')).
Proof.
  intros H. cbn zeta.
  destruct (removePlayer_unfold w userId byHimself H) as [g' [-> [Hp [Ht _]]]].
  rewrite Hp, Ht. cbn. split.
  - apply JSMapFacts.has_delete.
  - apply List.Forall_forall. intros team Hin.
    apply in_map_iff in Hin as [team0 [<- _]]. cbn.
    rewrite filter_In. intros [_ Hne]. now rewrite String.eqb_refl in Hne.
Qed.

(** ** What every command leaves alone *)

Section Always.
Context {R : World -> World -> Prop} {FR : Frame R}.

Lemma always_ret {A : Type} (a : A) : always R (ret a).
Proof. intros w. apply frame_refl. Qed.

Lemma always_throw {A : Type} (e : string) : always R (@throw World A e).
Proof. intros w. apply frame_refl. Qed.

Lemma always_gets {A : Type} (f : World -> A) : always R (gets f).
Proof. intros w. apply frame_refl. Qed.

Lemma always_deref (user : ref) : always R (deref user).
Proof.
  intros w. unfold deref. destruct (heap w !! user); apply frame_refl.
Qed.

Lemma always_bind {A B : Type} (c : Js A) (k : A -> Js B) :
  always R c -> (forall a, always R (k a)) -> always R (bind c k).
Proof.
  intros Hc Hk w. unfold bind. specialize (Hc w).
  destruct (c w) as [a w'|e w']; cbn in *.
  - eapply frame_trans; [exact Hc|]. apply Hk.
  - exact Hc.
Qed.

Lemma always_for_in (keys : list string) (body : string -> Js unit) :
  (forall k, always R (body k)) -> always R (for_in keys body).
Proof.
  intros Hb. induction keys as [|k keys IH]; cbn.
  - apply always_ret.
  - apply always_bind; [apply Hb|]. intros _. exact IH.
Qed.

Lemma always_every {A : Type} (p : A -> Js bool) (a : list A) :
  (forall x, always R (p x)) -> always R (every p a).
Proof.
  intros Hp. induction a as [|x a IH]; cbn.
  - apply always_ret.
  - apply always_bind; [apply Hp|]. intros [|]; [exact IH|apply always_ret].
Qed.

Lemma always_filterA {A : Type} (p : A -> Js bool) (a : list A) :
  (forall x, always R (p x)) -> always R (filterA p a).
Proof.
  intros Hp. induction a as [|x a IH]; cbn.
  - apply always_ret.
  - apply always_bind; [apply Hp|]. intros b.
    apply always_bind; [exact IH|]. intros rest. apply always_ret.
Qed.

Lemma always_mapA {A B : Type} (f : A -> Js B) (a : list A) :
  (forall x, always R (f x)) -> always R (mapA f a).
Proof.
  intros Hf. induction a as [|x a IH]; cbn.
  - apply always_ret.
  - apply always_bind; [apply Hf|]. intros y.
    apply always_bind; [exact IH|]. intros rest. apply always_ret.
Qed.

Lemma always_guarded (h : nat) (c : Js unit) :
  always R c ->
  always R (fun w => if existsb (Nat.eqb h) (intervals w) then c w else Normal tt w).
Proof.
  intros Hc w. destruct (existsb (Nat.eqb h) (intervals w)).
  - apply Hc.
  - apply frame_refl.
Qed.

End Always.

#[local] Instance latched_Frame : Frame latched.
Proof.
  split.
  - intros w. split; [|lia]. intros user u Hu. eauto.
  - intros w1 w2 w3 [H1 N1] [H2 N2]. split.
    + intros user u Hu.
      destruct (H1 user u Hu) as [u2 [Hu2 [Hid2 Hr2]]].
      destruct (H2 user u2 Hu2) as [u3 [Hu3 [Hid3 Hr3]]].
      exists u3. repeat split; [assumption|congruence|auto].
    + intros user. specialize (N1 user). specialize (N2 user). lia.
Qed.

#[local] Instance same_registry_Frame : Frame same_registry.
Proof.
  split.
  - intros w. reflexivity.
  - unfold same_registry. intros w1 w2 w3 H1 H2. congruence.
Qed.

Lemma count_playerReady_app (user : ref) (l : list Event) (e : Event) :
  count_playerReady user (l ++ [e])
  = (count_playerReady user l + if is_playerReady user e then 1 else 0)%nat.
Proof.
  unfold count_playerReady. rewrite List.filter_app, List.length_app. cbn.
  now destruct (is_playerReady user e).
Qed.

(** *** Readiness *)

#[local] Arguments count_playerReady : simpl never.
#[local] Arguments may_become_ready : simpl never.

Lemma latched_same (w w' : World) :
  heap w' = heap w -> emitted w' = emitted w -> latched w w'.
Proof.
  intros Hh He. split.
  - intros user u Hu. exists u. rewrite Hh. auto.
  - intros user. unfold may_become_ready. rewrite Hh, He. lia.
Qed.

Lemma latched_modifyThis (f : Game -> Game) : always latched (modifyThis f).
Proof. intros w. now apply latched_same. Qed.

Lemma latched_shuffled {A : Type} (a : list A) : always latched (shuffled a).
Proof. intros w. now apply latched_same. Qed.

Lemma latched_setInterval : always latched setInterval.
Proof. intros w. now apply latched_same. Qed.

Lemma latched_clearInterval (h : option nat) : always latched (clearInterval h).
Proof. intros w. destruct h; now apply latched_same. Qed.

Lemma latched_emit (event : string) (args : Payload) :
  (forall user, is_playerReady user (event, args) = false) ->
  always latched (emit event args).
Proof.
  intros Hne w. unfold emit. run_js. split.
  - intros user u Hu. eauto.
  - intros user. cbn. rewrite count_playerReady_app, Hne.
    unfold may_become_ready. cbn. lia.
Qed.

Lemma latched_update (user : ref) (f : User.t -> User.t) :
  (forall u, User.id (f u) = User.id u) ->
  (forall u, User.isReady u = true -> User.isReady (f u) = true) ->
  always latched (update user f).
Proof.
  intros Hid Hready w. unfold update.
  destruct (heap w !! user) as [u|] eqn:Hu; [|apply frame_refl].
  cbn. pose proof (lookup_lt_Some _ _ _ Hu) as Hlt. split.
  - intros user0 u0 Hu0. cbn.
    destruct (decide (user = user0)) as [<-|Hne].
    + rewrite list_lookup_insert_eq by assumption.
      exists (f u). assert (u0 = u) as -> by congruence. auto.
    + rewrite list_lookup_insert_ne by assumption. eauto.
  - intros user0. unfold may_become_ready. cbn.
    destruct (decide (user = user0)) as [<-|Hne].
    + rewrite list_lookup_insert_eq by assumption. rewrite Hu.
      destruct (User.isReady u) eqn:E.
      * rewrite (Hready u E). lia.
      * destruct (User.isReady (f u)); lia.
    + rewrite list_lookup_insert_ne by assumption. apply Nat.le_refl.
Qed.

Lemma latched_newUser (u : User.t) : always latched (newUser u).
Proof.
  intros w.
  assert (Hh : heap (final (newUser u w)) = heap w ++ [u]) by reflexivity.
  assert (He : emitted (final (newUser u w)) = emitted w) by reflexivity.
  split.
  - intros user u0 Hu0. exists u0. rewrite Hh.
    rewrite (lookup_app_l_Some _ _ _ _ Hu0). auto.
  - intros user. unfold may_become_ready. rewrite Hh, He.
    destruct (heap w !! user) as [u0|] eqn:Hu0.
    + rewrite (lookup_app_l_Some _ _ _ _ Hu0). lia.
    + destruct ((heap w ++ [u]) !! user) as [u1|]; [|lia].
      destruct (User.isReady u1); lia.
Qed.

Lemma latched_checkPlayerReady (user : ref) :
  always latched (_checkPlayerReady user).
Proof.
  intros w. unfold _checkPlayerReady, _playerIsReady, update, deref. run_js.
  destruct (heap w !! user) as [u|] eqn:Hu; cbn; [|apply frame_refl].
  destruct (User.isReady u) eqn:Hr; cbn; [apply frame_refl|].
  rewrite Hu. cbn.
  destruct (truthy_str (User.name u) && truthy_num (entriesPerPlayer (this w))
            && strict_eq_num (entries_size (User.entries u))
                 (entriesPerPlayer (this w))); cbn; [|apply frame_refl].
  rewrite Hu. cbn. pose proof (lookup_lt_Some _ _ _ Hu) as Hlt. split.
  - intros user0 u0 Hu0. cbn.
    destruct (decide (user = user0)) as [<-|Hne].
    + rewrite list_lookup_insert_eq by assumption.
      eexists. split; [reflexivity|]. assert (u0 = u) as -> by congruence.
      auto.
    + rewrite list_lookup_insert_ne by assumption. eauto.
  - intros user0. cbn. rewrite count_playerReady_app.
    unfold may_become_ready. cbn.
    destruct (decide (user = user0)) as [<-|Hne].
    + rewrite list_lookup_insert_eq by assumption. rewrite Hu, Hr. cbn.
      rewrite Nat.eqb_refl. lia.
    + rewrite list_lookup_insert_ne by assumption.
      apply Nat.eqb_neq in Hne. rewrite Hne.
      destruct (heap w !! user0) as [u0|]; [destruct (User.isReady u0)|]; lia.
Qed.

#[local] Hint Unfold
  canStart _fillEntries _playersForTeam _randomizeTurnOrder _randomizeEntries
  _score _shiftTurn Turn_push addPlayer setPlayerName setFont removePlayer
  setEntriesPerPlayer addEntry addTeam addPlayerToTeam removeTeam setTurnTime
  startRound start finishRound nextEntry finishTurn nextTurn nextRound finish
  _startTimer startTurn getThis : methods.

Ltac latched_step :=
  first
    [ apply always_ret
    | apply always_throw
    | apply always_gets
    | apply always_deref
    | apply latched_checkPlayerReady
    | apply latched_modifyThis
    | apply latched_shuffled
    | apply latched_setInterval
    | apply latched_clearInterval
    | apply latched_newUser
    | apply latched_emit; intros ?; reflexivity
    | apply latched_update; [intros ?; reflexivity | intros ? ?; cbn; auto]
    | apply always_for_in; intros ?
    | apply always_every; intros ?
    | apply always_filterA; intros ?
    | apply always_mapA; intros ?
    | apply always_guarded
    | apply always_bind; [|intros ?]
    | match goal with
      | |- always _ (if ?b then _ else _) => destruct b
      | |- always _ (match ?x with _ => _ end) => destruct x
      end ].

Lemma exec_latched (c : Command) : always latched (exec c).
Proof.
  destruct c; cbn [exec]; try unfold tick; autounfold with methods;
    repeat latched_step.
Qed.

(** *** The registry *)

Lemma same_registry_modifyThis (f : Game -> Game) :
  (forall g, players (f g) = players g) -> always same_registry (modifyThis f).
Proof. intros Hf w. apply Hf. Qed.

Lemma same_registry_update (user : ref) (f : User.t -> User.t) :
  always same_registry (update user f).
Proof.
  intros w. unfold update. now destruct (heap w !! user).
Qed.

Lemma same_registry_shuffled {A : Type} (a : list A) :
  always same_registry (shuffled a).
Proof. intros w. reflexivity. Qed.

Lemma same_registry_setInterval : always same_registry setInterval.
Proof. intros w. reflexivity. Qed.

Lemma same_registry_clearInterval (h : option nat) :
  always same_registry (clearInterval h).
Proof. intros w. now destruct h. Qed.

Lemma same_registry_newUser (u : User.t) : always same_registry (newUser u).
Proof. intros w. reflexivity. Qed.

Lemma same_registry_emit (event : string) (args : Payload) :
  always same_registry (emit event args).
Proof. intros w. reflexivity. Qed.

Ltac same_registry_step :=
  first
    [ apply always_ret
    | apply always_throw
    | apply always_gets
    | apply always_deref
    | apply same_registry_modifyThis; intros ?; reflexivity
    | apply same_registry_update
    | apply same_registry_shuffled
    | apply same_registry_setInterval
    | apply same_registry_clearInterval
    | apply same_registry_newUser
    | apply same_registry_emit
    | apply always_for_in; intros ?
    | apply always_every; intros ?
    | apply always_filterA; intros ?
    | apply always_mapA; intros ?
    | apply always_guarded
    | apply always_bind; [|intros ?]
    | match goal with
      | |- always _ (if ?b then _ else _) => destruct b
      | |- always _ (match ?x with _ => _ end) => destruct x
      end ].

(** A command that is neither [addPlayer] nor [removePlayer]. *)
Lemma exec_same_registry (c : Command) :
  match c with
  | AddPlayer _ _ | RemovePlayer _ _ => True
  | _ => always same_registry (exec c)
  end.
Proof.
  destruct c; try exact I; cbn [exec]; try unfold tick;
    unfold _checkPlayerReady, _playerIsReady; autounfold with methods;
    repeat same_registry_step.
Qed.

Lemma addPlayer_unfold (w : World) (user : ref) (isMaster : bool) :
  addPlayer user isMaster w
  = match heap w !! user with
    | None => Abrupt "TypeError: cannot read properties of undefined" w
    | Some u =>
        if JSMap.has (User.id u) (players (this w)) then Normal tt w
        else
          let g := set_players (JSMap.set (User.id u) user (players (this w)))
                     (this w) in
          let g := if isMaster then set_master (Some (User.id u)) g else g in
          Normal tt
            (set_emitted (emitted w ++ [("playerAdded", OfUser user)])
               (set_this (set_updatedAt (S (updatedAt g)) g) w))
    end.
Proof.
  unfold addPlayer, deref. run_js.
  destruct (heap w !! user) as [u|]; [|reflexivity].
  destruct (JSMap.has (User.id u) (players (this w))); [reflexivity|].
  now destruct isMaster.
Qed.

Lemma registry_ok_framed (w w' : World) :
  latched w w' -> same_registry w w' -> registry_ok w -> registry_ok w'.
Proof.
  intros [Hl _] Hs [Hnd Hk]. unfold registry_ok, registry_keyed.
  rewrite Hs. split; [assumption|].
  intros k user Hin. destruct (Hk k user Hin) as [u [Hu Hid]].
  destruct (Hl user u Hu) as [u' [Hu' [Hid' _]]].
  exists u'. split; [assumption|congruence].
Qed.

Lemma addPlayer_new (w : World) (user : ref) (u : User.t) (isMaster : bool) :
  heap w !! user = Some u ->
  JSMap.has (User.id u) (players (this w)) = false ->
  exists w',
    addPlayer user isMaster w = Normal tt w'
    /\ players (this w') = players (this w) ++ [(User.id u, user)]
    /\ removedPlayers (this w') = removedPlayers (this w)
    /\ heap w' = heap w.
Proof.
  intros Hu Hhas. rewrite addPlayer_unfold, Hu, Hhas.
  eexists. split; [reflexivity|].
  rewrite <- (JSMapFacts.keys_set_new _ user _ Hhas).
  now destruct isMaster.
Qed.

Lemma registry_ok_addPlayer (w : World) (user : ref) (isMaster : bool) :
  registry_ok w -> registry_ok (final (addPlayer user isMaster w)).
Proof.
  intros [Hnd Hk].
  destruct (heap w !! user) as [u|] eqn:Hu;
    [|now rewrite addPlayer_unfold, Hu].
  destruct (JSMap.has (User.id u) (players (this w))) eqn:Hhas;
    [now rewrite addPlayer_unfold, Hu, Hhas|].
  destruct (addPlayer_new w user u isMaster Hu Hhas) as [w' [-> [Hp [_ Hh]]]].
  cbn [final]. unfold registry_ok, registry_keyed. rewrite Hp, Hh. split.
  - unfold JSMap.keys. rewrite map_app. cbn.
    apply List.NoDup_app; [assumption|repeat constructor; intros []|].
    intros k Hin [<-|[]].
    apply JSMapFacts.has_keys in Hin. congruence.
  - intros k r Hin. apply in_app_or in Hin as [Hin|[[= <- <-]|[]]].
    + apply Hk, Hin.
    + exists u. split; [exact Hu|reflexivity].
Qed.

Lemma registry_ok_removePlayer (w : World) (userId : string) (byHimself : bool) :
  registry_ok w -> registry_ok (final (removePlayer userId byHimself w)).
Proof.
  intros [Hnd Hk].
  destruct (JSMap.has userId (players (this w))) eqn:Hhas.
  - destruct (removePlayer_unfold w userId byHimself Hhas)
      as [g' [Hg [Hp [_ Hh]]]].
    unfold registry_ok, registry_keyed. rewrite Hg, Hp, Hh.
    cbn [players set_turnOrder set_players]. split.
    + rewrite JSMapFacts.keys_delete. now apply List.NoDup_filter.
    + intros k r Hin. apply JSMapFacts.In_delete in Hin as [Hin _].
      apply Hk, Hin.
  - rewrite removePlayer_unknown by assumption. now split.
Qed.

Lemma reachable_registry_ok (w : World) : reachable w -> registry_ok w.
Proof.
  induction 1 as [g|c w Hw IH].
  - split; [constructor|]. intros k user [].
  - pose proof (exec_latched c w) as Hl.
    pose proof (exec_same_registry c) as Hs.
    destruct c;
      try (apply (registry_ok_framed w); [exact Hl|apply Hs|exact IH]).
    + now apply registry_ok_addPlayer.
    + now apply registry_ok_removePlayer.
Qed.

Lemma registered_ids_keys (w : World) :
  registry_keyed w -> registered_ids w = JSMap.keys (players (this w)).
Proof.
  unfold registry_keyed, registered_ids, JSMap.values, JSMap.keys.
  induction (players (this w)) as [|[k user] m IH]; intros Hk; [reflexivity|].
  cbn. destruct (Hk k user) as [u [Hu <-]]; [now left|].
  rewrite Hu. cbn. f_equal. apply IH. intros k' r Hin. apply Hk. now right.
Qed.

(** C8 (as the code has it).  In every state a fresh session can reach, the
    registered User objects have pairwise different ids, and [addPlayer] with
    an id that is registered leaves the session as it is.  The guard of
    [addPlayer] looks at the registry alone: with an id that is not
    registered it registers the object, whether or not the id is in the
    removed-set, which it neither reads nor writes.  So a removed id is not
    kept out. *)
Theorem registry_ids_unique :
  (forall w : World, reachable w -> List.NoDup (registered_ids w))
  /\ (forall (w : World) (user : ref) (u : User.t) (isMaster : bool),
         heap w !! user = Some u ->
         JSMap.has (User.id u) (players (this w)) = true ->
         addPlayer user isMaster w = Normal tt w)
  /\ (forall (w : World) (user : ref) (u : User.t) (isMaster : bool),
         heap w !! user = Some u ->
         JSMap.has (User.id u) (players (this w)) = false ->
         let w' := final (addPlayer user isMaster w) in
         JSMap.get (User.id u) (players (this w')) = Some user
         /\ removedPlayers (this w') = removedPlayers (this w)).
Proof.
  split; [|split].
  - intros w Hw. destruct (reachable_registry_ok w Hw) as [Hnd Hk].
    now rewrite registered_ids_keys.
  - intros w user u isMaster Hu Hhas. now rewrite addPlayer_unfold, Hu, Hhas.
  - intros w user u isMaster Hu Hhas. cbn zeta.
    rewrite addPlayer_unfold, Hu, Hhas. destruct isMaster; cbn;
      (split; [now apply JSMapFacts.get_set_new|reflexivity]).
Qed.

Lemma reachable_run (cs : list Command) (w : World) :
  reachable w -> reachable (run cs w).
Proof.
  revert w. induction cs as [|c cs IH]; intros w Hw; cbn.
  - exact Hw.
  - apply IH. now constructor.
Qed.

(** ** Readiness latches *)

Lemma run_latched (cs : list Command) (w : World) : latched w (run cs w).
Proof.
  revert w. induction cs as [|c cs IH]; intros w; cbn.
  - apply frame_refl.
  - eapply frame_trans; [apply exec_latched|apply IH].
Qed.

(** C10.  No command resets a set [isReady] flag -- not
    [setEntriesPerPlayer], after which the entry count may differ from the
    quota, nor any other -- and over any sequence of commands [playerReady]
    is emitted at most once more for a User object, and not at all for one
    that is flagged. *)
Theorem isReady_latches :
  (forall (c : Command) (w : World) (user : ref) (u : User.t),
      heap w !! user = Some u ->
      User.isReady u = true ->
      exists u', heap (final (exec c w)) !! user = Some u'
                 /\ User.isReady u' = true)
  /\ (forall (cs : list Command) (w : World) (user : ref),
         (count_playerReady user (emitted (run cs w))
          <= count_playerReady user (emitted w) + may_become_ready user w)%nat)
  /\ (forall (cs : list Command) (g : Rng) (user : ref),
         (count_playerReady user (emitted (run cs (new_World g))) <= 1)%nat).
Proof.
  split; [|split].
  - intros c w user u Hu Hr.
    destruct (exec_latched c w) as [Hl _].
    destruct (Hl user u Hu) as [u' [Hu' [_ Hr']]]. eauto.
  - intros cs w user. destruct (run_latched cs w) as [_ Hn].
    eapply Nat.le_trans; [apply Nat.le_add_r|exact (Hn user)].
  - intros cs g user. destruct (run_latched cs (new_World g)) as [_ Hn].
    eapply Nat.le_trans; [apply Nat.le_add_r|exact (Hn user)].
Qed.

(** * More of the class *)

(** ** Rounds *)

Lemma startRound_refused (w : World) :
  canStartRound (this w) = false -> startRound w = Normal tt w.
Proof. intros H. unfold startRound. run_js. now rewrite H. Qed.

Lemma shuffle_nil {A : Type} (g : Rng) : fst (shuffle (@nil A) g) = [].
Proof. apply Permutation_nil, shuffle_Permutation. Qed.

(** X1.  [startRound()] acts exactly when its guard passes -- game started,
    no round running, [turnTime] and [scorePerEntry] not zero.  It then
    leaves the queue empty whatever teams and players there are, sets the
    countdown to [turnTime], marks the round started and emits
    [roundStarted]; otherwise it changes nothing. *)
Theorem startRound_effect (w : World) :
  if canStartRound (this w)
  then threw (startRound w) = false
       /\ turnOrder (this (final (startRound w))) = []
       /\ roundStarted (this (final (startRound w))) = true
       /\ turnTimeLeft (this (final (startRound w))) = turnTime (this w)
       /\ emitted (final (startRound w)) = emitted w ++ [("roundStarted", NoArgs)]
       /\ teams (this (final (startRound w))) = teams (this w)
       /\ heap (final (startRound w)) = heap w
  else startRound w = Normal tt w.
Proof.
  destruct (canStartRound (this w)) eqn:E; [|now apply startRound_refused].
  unfold startRound, _randomizeTurnOrder, _randomizeEntries. run_js.
  rewrite E. cbn. repeat split. apply shuffle_nil.
Qed.

Lemma startRound_passed (w : World) :
  canStartRound (this w) = true ->
  roundStarted (this (final (startRound w))) = true
  /\ turnTimeLeft (this (final (startRound w))) = turnTime (this w)
  /\ emitted (final (startRound w)) = emitted w ++ [("roundStarted", NoArgs)].
Proof.
  intros E. unfold startRound, _randomizeTurnOrder, _randomizeEntries. run_js.
  rewrite E. cbn. repeat split.
Qed.

Lemma startRound_marks (w : World) :
  canStartRound (this w) = true ->
  roundStarted (this (final (startRound w))) = true.
Proof. intros E. now apply startRound_passed. Qed.

Lemma startRound_keeps_flags (w : World) :
  roundFinished (this (final (startRound w))) = roundFinished (this w)
  /\ turnStarted (this (final (startRound w))) = turnStarted (this w)
  /\ turnFinished (this (final (startRound w))) = turnFinished (this w).
Proof.
  destruct (canStartRound (this w)) eqn:E.
  - unfold startRound, _randomizeTurnOrder, _randomizeEntries. run_js.
    rewrite E. cbn. repeat split.
  - rewrite (startRound_refused w E). repeat split.
Qed.

Lemma canStartRound_running (g : Game) :
  roundStarted g = true -> canStartRound g = false.
Proof.
  intros H. unfold canStartRound. rewrite H.
  now destruct (isStarted g).
Qed.

(** X2.  [start()] and [startRound()] are idempotent: a second call in a row
    finds its guard closed and changes nothing. *)
Theorem start_startRound_idempotent (w : World) :
  final (startRound (final (startRound w))) = final (startRound w)
  /\ final (start (final (start w))) = final (start w).
Proof.
  split.
  - destruct (canStartRound (this w)) eqn:E.
    + rewrite (startRound_refused (final (startRound w))); [reflexivity|].
      now apply canStartRound_running, startRound_marks.
    + rewrite (startRound_refused w E). cbn [final].
      now rewrite (startRound_refused w E).
  - pose proof (start_cases w) as H.
    destruct (negb (isStarted (this w)) && players_flagged w).
    + destruct H as [H _].
      rewrite (start_unfold (final (start w))), canStart_unfold, H.
      reflexivity.
    + rewrite H. exact H.
Qed.

(** X3.  A finished round can be played again: after [finishRound()],
    [nextRound()] and [startRound()] the round is running and not finished
    and the countdown is back at [turnTime].  The flags of the turn are not
    touched on the way. *)
Theorem round_restarts (w : World) :
  isStarted (this w) = true ->
  turnTime (this w) <> 0 ->
  scorePerEntry (this w) <> 0 ->
  let w' := run [FinishRound; NextRound; StartRound] w in
  roundStarted (this w') = true
  /\ roundFinished (this w') = false
  /\ turnTimeLeft (this w') = turnTime (this w)
  /\ turnStarted (this w') = turnStarted (this w)
  /\ turnFinished (this w') = turnFinished (this w)
  /\ emitted w'
     = emitted w ++ [("roundFinished", NoArgs); ("nextRound", NoArgs);
                     ("roundStarted", NoArgs)].
Proof.
  intros Hs Ht Hp. cbn [run exec].
  set (w2 := final (nextRound (final (finishRound w)))).
  assert (E : canStartRound (this w2) = true).
  { unfold w2, nextRound, finishRound. run_js.
    destruct (timer (this w)); cbn; unfold canStartRound; cbn;
      rewrite Hs; unfold truthy_num;
      apply Z.eqb_neq in Ht, Hp; now rewrite Ht, Hp. }
  destruct (startRound_passed w2 E) as [H1 [H2 H3]].
  assert (Hr : roundFinished (this (final (startRound w2))) = false
               /\ turnStarted (this (final (startRound w2)))
                  = turnStarted (this w)
               /\ turnFinished (this (final (startRound w2)))
                  = turnFinished (this w)).
  { destruct (startRound_keeps_flags w2) as [-> [-> ->]].
    unfold w2, nextRound, finishRound. run_js.
    destruct (timer (this w)); cbn; repeat split. }
  destruct Hr as [H4 [H5 H6]].
  rewrite H1, H2, H3. repeat split; try assumption.
  - unfold w2, nextRound, finishRound. run_js.
    now destruct (timer (this w)).
  - unfold w2, nextRound, finishRound. run_js.
    destruct (timer (this w)); cbn; now rewrite <- !app_assoc.
Qed.

(** ** The countdown *)

Lemma tick_dead (w : World) (h : nat) :
  ~ In h (intervals w) -> tick h w = Normal tt w.
Proof.
  intros H. unfold tick.
  destruct (existsb (Nat.eqb h) (intervals w)) eqn:E; [|reflexivity].
  apply existsb_exists in E as [h' [Hin Heq]].
  apply Nat.eqb_eq in Heq. now subst.
Qed.

Lemma not_In_cleared (h : nat) (l : list nat) :
  ~ In h (List.filter (fun j => negb (Nat.eqb h j)) l).
Proof.
  rewrite filter_In. intros [_ H]. now rewrite Nat.eqb_refl in H.
Qed.

(** X4.  [finishRound()] stops the countdown whose handle is in
    [this.timer]: its interval is dead afterwards and a late tick of it does
    nothing.  Intervals with another handle stay alive. *)
Theorem finishRound_clears_timer (w : World) (h : nat) :
  timer (this w) = Some h ->
  let w' := final (finishRound w) in
  ~ In h (intervals w')
  /\ tick h w' = Normal tt w'
  /\ (forall h' : nat, h' <> h -> In h' (intervals w) -> In h' (intervals w'))
  /\ roundFinished (this w') = true.
Proof.
  intros Ht. cbn zeta.
  assert (Hi : intervals (final (finishRound w))
               = List.filter (fun j => negb (Nat.eqb h j)) (intervals w)).
  { unfold finishRound. run_js. now rewrite Ht. }
  assert (Hdead : ~ In h (intervals (final (finishRound w)))).
  { rewrite Hi. apply not_In_cleared. }
  split; [exact Hdead|]. split; [now apply tick_dead|]. split.
  - intros h' Hne Hin. rewrite Hi. apply filter_In. split; [assumption|].
    apply negb_true_iff, Nat.eqb_neq. congruence.
  - unfold finishRound. run_js. now rewrite Ht.
Qed.

Lemma js_pred_safe (z : Z) :
  - 2 ^ 53 < z - 1 < 2 ^ 53 -> js_pred z = z - 1.
Proof.
  intros H. unfold js_pred, round_double. cbn zeta.
  destruct (Z.ltb_spec (Z.abs (z - 1)) (2 ^ 53)) as [_|Hge]; [reflexivity|lia].
Qed.

Lemma round_double_neg (z : Z) : z < 0 -> round_double z < 0.
Proof.
  intros Hz. unfold round_double. cbn zeta.
  destruct (Z.ltb_spec (Z.abs z) (2 ^ 53)) as [_|Hge]; [exact Hz|].
  set (m := Z.abs z) in *.
  assert (Hlog : 53 <= Z.log2 m).
  { apply Z.log2_le_pow2; lia. }
  set (e := Z.log2 m - 52) in *.
  assert (He : 2 ^ e <= m).
  { transitivity (2 ^ Z.log2 m).
    - apply Z.pow_le_mono_r; lia.
    - apply Z.log2_spec. lia. }
  assert (Hp : 0 < 2 ^ e) by (apply Z.pow_pos_nonneg; lia).
  assert (Hq : 0 < m / 2 ^ e) by (apply Z.div_str_pos; lia).
  rewrite (Z.sgn_neg z Hz).
  destruct ((2 ^ (e - 1) <? m mod 2 ^ e)
            || ((m mod 2 ^ e =? 2 ^ (e - 1)) && Z.odd (m / 2 ^ e))); nia.
Qed.

Lemma js_pred_neg (z : Z) : z <= 0 -> js_pred z < 0.
Proof. intros Hz. apply round_double_neg. lia. Qed.

(** At [- 2 ^ 53] the decrement is lost in the rounding. *)
Example js_pred_sticks : js_pred (- 2 ^ 53) = - 2 ^ 53.
Proof. reflexivity. Qed.

Lemma tick_counts (w : World) (h : nat) :
  In h (intervals w) ->
  js_pred (turnTimeLeft (this w)) <> 0 ->
  tick h w
  = Normal tt
      (set_this (set_turnTimeLeft (js_pred (turnTimeLeft (this w))) (this w)) w).
Proof.
  intros Hin Hne. unfold tick. rewrite (existsb_eqb_In h _ Hin). run_js.
  destruct (Z.eqb_spec (js_pred (turnTimeLeft (this w))) 0) as [E|E];
    [contradiction|].
  reflexivity.
Qed.

Lemma tick_fires (w : World) (h : nat) :
  In h (intervals w) ->
  timer (this w) = Some h ->
  turnTimeLeft (this w) = 1 ->
  emitted (final (tick h w)) = emitted w ++ [("turnFinished", NoArgs)]
  /\ ~ In h (intervals (final (tick h w)))
  /\ turnTimeLeft (this (final (tick h w))) = 0
  /\ turnFinished (this (final (tick h w))) = true.
Proof.
  intros Hin Ht Hl. unfold tick. rewrite (existsb_eqb_In h _ Hin).
  unfold finishTurn, _randomizeEntries. run_js. rewrite Hl.
  change (js_pred 1) with 0. cbn. rewrite Ht. cbn.
  repeat split. apply not_In_cleared.
Qed.

(** X5.  Once [_startTimer()] has made the interval whose handle is in
    [this.timer], a countdown with [n + 1] seconds left, [n + 1] at most
    [2 ^ 53], expires on tick [n + 1] and not before: that tick finishes the
    turn, once, and kills the interval. *)
Theorem countdown_expires (n : nat) (w : World) (h : nat) :
  In h (intervals w) ->
  timer (this w) = Some h ->
  turnTimeLeft (this w) = Z.of_nat (S n) ->
  Z.of_nat (S n) <= 2 ^ 53 ->
  let w' := run (repeat (Tick h) (S n)) w in
  emitted (run (repeat (Tick h) n) w) = emitted w
  /\ emitted w' = emitted w ++ [("turnFinished", NoArgs)]
  /\ ~ In h (intervals w')
  /\ turnTimeLeft (this w') = 0
  /\ turnFinished (this w') = true.
Proof.
  revert w. induction n as [|n IH]; intros w Hin Ht Hl Hb; cbn zeta.
  - split; [reflexivity|]. cbn [repeat run exec].
    now apply tick_fires.
  - cbn [repeat run exec].
    assert (Hp : js_pred (turnTimeLeft (this w)) = Z.of_nat (S n)).
    { rewrite js_pred_safe; lia. }
    rewrite (tick_counts w h Hin) by lia. cbn [final]. rewrite Hp.
    set (w1 := set_this _ w).
    destruct (IH w1) as [H0 H]; [exact Hin|exact Ht|reflexivity|lia|].
    split; [exact H0|]. exact H.
Qed.

(** X6.  A countdown that stands at zero or below never expires: the test
    is [turnTimeLeft === 0] after the decrement, and the decrement of a
    number that is not positive gives a negative one.  Ticks emit nothing,
    leave every interval alive and the clock at zero or below; as long as
    the clock stays above [- 2 ^ 53], a live interval takes one off it with
    each tick. *)
Theorem countdown_below_zero_runs_on (n : nat) (w : World) (h : nat) :
  turnTimeLeft (this w) <= 0 ->
  let w' := run (repeat (Tick h) n) w in
  emitted w' = emitted w
  /\ intervals w' = intervals w
  /\ turnTimeLeft (this w') <= 0
  /\ (In h (intervals w) ->
      - 2 ^ 53 < turnTimeLeft (this w) - Z.of_nat n ->
      turnTimeLeft (this w') = turnTimeLeft (this w) - Z.of_nat n).
Proof.
  revert w. induction n as [|n IH]; intros w Hl; cbn zeta.
  - repeat split; [exact Hl|]. intros _ _. cbn. lia.
  - cbn [repeat run exec].
    destruct (in_dec Nat.eq_dec h (intervals w)) as [Hin|Hout].
    + pose proof (js_pred_neg _ Hl) as Hneg.
      rewrite (tick_counts w h Hin) by lia. cbn [final].
      set (w1 := set_this _ w).
      destruct (IH w1) as [H1 [H2 [H3 H4]]]; [cbn; lia|].
      split; [exact H1|]. split; [exact H2|]. split; [exact H3|].
      intros _ Hb.
      assert (Hp : js_pred (turnTimeLeft (this w)) = turnTimeLeft (this w) - 1).
      { apply js_pred_safe. lia. }
      rewrite (H4 Hin); cbn [w1 this set_this turnTimeLeft set_turnTimeLeft];
        rewrite ?Hp; lia.
    + rewrite (tick_dead w h Hout). cbn [final].
      destruct (IH w Hl) as [H1 [H2 [H3 H4]]].
      split; [exact H1|]. split; [exact H2|]. split; [exact H3|].
      intros Hin. contradiction.
Qed.


(** ** Teams *)

Lemma get_set_same {V : Type} (k : string) (v : V) (m : JSMap.t V) :
  JSMap.get k (JSMap.set k v m) = Some v.
Proof.
  induction m as [|[k' v'] m IH]; cbn.
  - now rewrite String.eqb_refl.
  - destruct (String.eqb k k') eqn:E; cbn; rewrite E; [reflexivity|exact IH].
Qed.

Lemma get_set_other {V : Type} (k k' : string) (v : V) (m : JSMap.t V) :
  k' <> k -> JSMap.get k' (JSMap.set k v m) = JSMap.get k' m.
Proof.
  intros Hne. induction m as [|[k0 v0] m IH]; cbn.
  - destruct (String.eqb_spec k' k); [contradiction|reflexivity].
  - destruct (String.eqb_spec k k0) as [->|Hk]; cbn.
    + destruct (String.eqb_spec k' k0); [contradiction|reflexivity].
    + destruct (String.eqb k' k0); [reflexivity|exact IH].
Qed.

Lemma keys_set_present {V : Type} (k : string) (v : V) (m : JSMap.t V) :
  JSMap.has k m = true -> JSMap.keys (JSMap.set k v m) = JSMap.keys m.
Proof.
  unfold JSMap.has, JSMap.keys.
  induction m as [|[k0 v0] m IH]; cbn; [discriminate|].
  destruct (String.eqb k k0); cbn; [reflexivity|].
  intros H. f_equal. apply IH, H.
Qed.

(** X7.  [addTeam(team)] files the team under its id.  Under an id that is
    taken it replaces the team that was there -- its score included -- and
    keeps the order of the teams; under a new id it appends.  The other teams
    stay as they are. *)
Theorem addTeam_overwrites (w : World) (team : Team.t) :
  let w' := final (addTeam team w) in
  JSMap.get (Team.id team) (teams (this w')) = Some team
  /\ (forall k : string,
         k <> Team.id team ->
         JSMap.get k (teams (this w')) = JSMap.get k (teams (this w)))
  /\ JSMap.keys (teams (this w'))
     = (if JSMap.has (Team.id team) (teams (this w))
        then JSMap.keys (teams (this w))
        else JSMap.keys (teams (this w)) ++ [Team.id team])
  /\ emitted w' = emitted w ++ [("teamAdded", OfTeam team)].
Proof.
  cbn zeta.
  assert (E : teams (this (final (addTeam team w)))
              = JSMap.set (Team.id team) team (teams (this w))) by reflexivity.
  rewrite E. split; [apply get_set_same|]. split.
  - intros k Hne. now apply get_set_other.
  - split; [|reflexivity].
    destruct (JSMap.has (Team.id team) (teams (this w))) eqn:Hhas.
    + now apply keys_set_present.
    + rewrite (JSMapFacts.keys_set_new _ team _ Hhas).
      unfold JSMap.keys. now rewrite map_app.
Qed.

Lemma get_unknown {V : Type} (k : string) (m : JSMap.t V) :
  JSMap.has k m = false -> JSMap.get k m = None.
Proof. unfold JSMap.has. now destruct (JSMap.get k m). Qed.

(** ** Commands from clients the session does not know *)

(** X8.  A command that names a player id the registry does not hold --
    a name, a font, an entry, a team assignment, a removal -- changes nothing,
    emits nothing and does not throw. *)
Theorem unknown_player_ignored
    (w : World) (userId : string) (name font : option string)
    (entry teamId : string) (byHimself : bool) :
  JSMap.has userId (players (this w)) = false ->
  setPlayerName userId name w = Normal tt w
  /\ setFont userId font w = Normal tt w
  /\ addEntry userId entry w = Normal tt w
  /\ addPlayerToTeam userId teamId w = Normal tt w
  /\ removePlayer userId byHimself w = Normal tt w.
Proof.
  intros H. pose proof (get_unknown _ _ H) as Hg.
  unfold setPlayerName, setFont, addEntry, addPlayerToTeam. run_js.
  rewrite Hg. repeat split. now apply removePlayer_unknown.
Qed.

(** ** Names, entries and readiness *)

Lemma checkPlayerReady_effect (w : World) (user : ref) (u : User.t) :
  heap w !! user = Some u ->
  let ready := truthy_str (User.name u)
               && truthy_num (entriesPerPlayer (this w))
               && strict_eq_num (entries_size (User.entries u))
                    (entriesPerPlayer (this w)) in
  _checkPlayerReady user w
  = if negb (User.isReady u) && ready
    then Normal tt
           (set_emitted (emitted w ++ [("playerReady", OfUser user)])
              (set_this (set_updatedAt (S (updatedAt (this w))) (this w))
                 (set_heap (<[user := User.set_isReady true u]> (heap w)) w)))
    else Normal tt w.
Proof.
  intros Hu. cbn zeta. unfold _checkPlayerReady, _playerIsReady, deref, update.
  run_js. rewrite Hu. cbn.
  destruct (User.isReady u); cbn; [reflexivity|].
  rewrite Hu. cbn.
  destruct (truthy_str (User.name u) && truthy_num (entriesPerPlayer (this w))
            && strict_eq_num (entries_size (User.entries u))
                 (entriesPerPlayer (this w))); cbn; [|reflexivity].
  now rewrite Hu.
Qed.

(** X9.  [addEntry] for a registered player appends the entry to the
    player's list and then tests readiness on the longer list: the flag is
    set, and [playerReady] emitted, exactly when it was unset and the player
    has a name, the quota is not zero and the size of the list equals the
    quota.  Nothing else is emitted, and no other object changes. *)
Theorem addEntry_effect
    (w : World) (userId entry : string) (user : ref) (u : User.t) :
  JSMap.get userId (players (this w)) = Some user ->
  heap w !! user = Some u ->
  let longer := User.entries u ++ [entry] in
  let ready := truthy_str (User.name u)
               && truthy_num (entriesPerPlayer (this w))
               && strict_eq_num (entries_size longer) (entriesPerPlayer (this w)) in
  let w' := final (addEntry userId entry w) in
  threw (addEntry userId entry w) = false
  /\ heap w'
     = <[user := User.set_isReady (User.isReady u || ready)
                   (User.set_entries longer u)]> (heap w)
  /\ emitted w'
     = emitted w ++ (if negb (User.isReady u) && ready
                     then [("playerReady", OfUser user)] else []).
Proof.
  intros Hg Hu. cbn zeta.
  pose proof (lookup_lt_Some _ _ _ Hu) as Hlt.
  unfold addEntry, update. run_js. rewrite Hg, Hu. cbn.
  match goal with |- context [_checkPlayerReady user ?w1] =>
    rewrite (checkPlayerReady_effect w1 user
               (User.set_entries (User.entries u ++ [entry]) u))
      by (cbn; now apply list_lookup_insert_eq)
  end.
  cbn.
  destruct (User.isReady u) eqn:Er; cbn.
  - split; [reflexivity|]. split; [|now rewrite app_nil_r].
    f_equal. destruct u; cbn in *. now subst.
  - destruct (truthy_str (User.name u) && truthy_num (entriesPerPlayer (this w))
              && strict_eq_num (entries_size (User.entries u ++ [entry]))
                   (entriesPerPlayer (this w))); cbn.
    + split; [reflexivity|]. split; [|reflexivity].
      now rewrite list_insert_insert_eq.
    + split; [reflexivity|]. split; [|now rewrite app_nil_r].
      f_equal. destruct u; cbn in *. now subst.
Qed.

(** X10.  [setPlayerName] for a registered player writes the name, emits
    [playerNameSet] and then tests readiness with the new name: an empty name
    or [null] never makes a player ready, and a set flag stays. *)
Theorem setPlayerName_effect
    (w : World) (userId : string) (name : option string) (user : ref)
    (u : User.t) :
  JSMap.get userId (players (this w)) = Some user ->
  heap w !! user = Some u ->
  let ready := truthy_str name
               && truthy_num (entriesPerPlayer (this w))
               && strict_eq_num (entries_size (User.entries u))
                    (entriesPerPlayer (this w)) in
  let w' := final (setPlayerName userId name w) in
  threw (setPlayerName userId name w) = false
  /\ heap w'
     = <[user := User.set_isReady (User.isReady u || ready)
                   (User.set_name name u)]> (heap w)
  /\ emitted w'
     = emitted w ++ ("playerNameSet", OfUser user)
                 :: (if negb (User.isReady u) && ready
                     then [("playerReady", OfUser user)] else []).
Proof.
  intros Hg Hu. cbn zeta.
  pose proof (lookup_lt_Some _ _ _ Hu) as Hlt.
  unfold setPlayerName, update. run_js. rewrite Hg, Hu. cbn.
  match goal with |- context [_checkPlayerReady user ?w1] =>
    rewrite (checkPlayerReady_effect w1 user (User.set_name name u))
      by (cbn; now apply list_lookup_insert_eq)
  end.
  cbn.
  destruct (User.isReady u) eqn:Er; cbn.
  - split; [reflexivity|]. split; [|reflexivity].
    f_equal. destruct u; cbn in *. now subst.
  - destruct (truthy_str name && truthy_num (entriesPerPlayer (this w))
              && strict_eq_num (entries_size (User.entries u))
                   (entriesPerPlayer (this w))); cbn.
    + split; [reflexivity|]. split; [now rewrite list_insert_insert_eq|].
      now rewrite <- app_assoc.
    + split; [reflexivity|]. split; [|reflexivity].
      f_equal. destruct u; cbn in *. now subst.
Qed.


(** ** Leaving and being removed *)

(** X11.  In a session whose registry is keyed by the ids of its objects,
    [removePlayer] of a registered id returns normally, deletes the id, and
    records how the player went: [playerLeft] and no trace in the removed-set
    for a player who left by himself, [playerRemoved] and an entry in the
    removed-set otherwise.  If the id was the master's, the first of the
    remaining ids (in joining order) is the new master; if nobody remains the
    master stays the id that was removed. *)
Theorem removePlayer_effect (w : World) (userId : string) (byHimself : bool) :
  registry_keyed w ->
  JSMap.has userId (players (this w)) = true ->
  let w' := final (removePlayer userId byHimself w) in
  let rest := JSMap.delete userId (players (this w)) in
  threw (removePlayer userId byHimself w) = false
  /\ players (this w') = rest
  /\ master (this w')
     = (if strict_eq_str (Some userId) (master (this w))
        then match JSMap.keys rest with
             | k :: _ => Some k
             | [] => master (this w)
             end
        else master (this w))
  /\ removedPlayers (this w')
     = (if byHimself then removedPlayers (this w)
        else JSMap.set userId userId (removedPlayers (this w)))
  /\ emitted w'
     = emitted w ++ [(if byHimself then "playerLeft" else "playerRemoved",
                      OfId userId)]
  /\ heap w' = heap w.
Proof.
  intros Hk Hhas. cbn zeta. unfold removePlayer. run_js. rewrite Hhas. cbn.
  destruct (strict_eq_str (Some userId) (master (this w))) eqn:Em;
    cbn in Em; rewrite Em; cbn.
  - destruct (JSMap.delete userId (players (this w))) as [|[k r] m] eqn:Ed; cbn.
    + destruct byHimself; cbn; repeat split.
    + assert (Hin : In (k, r) (players (this w))).
      { apply (JSMapFacts.In_delete userId). rewrite Ed. now left. }
      destruct (Hk k r Hin) as [u [Hu Hid]].
      assert (Hsize : (Z.of_nat (S (List.length m)) =? 0) = false)
        by (apply Z.eqb_neq; lia).
      unfold deref. rewrite Hsize. cbn. rewrite Hu. cbn. rewrite Hid.
      destruct byHimself; cbn; repeat split.
  - destruct byHimself; cbn; repeat split.
Qed.

(** ** Teams and their members *)

Lemma filterA_members (teamId : option string) (l : list ref) (w : World) :
  Forall (fun user : ref => (user < List.length (heap w))%nat) l ->
  filterA (fun user =>
             (u <- deref user ;;
              ret (strict_eq_str (User.teamId u) teamId))%js) l w
  = Normal (List.filter (fun user =>
                           match heap w !! user with
                           | Some u => strict_eq_str (User.teamId u) teamId
                           | None => false
                           end) l) w.
Proof.
  induction 1 as [|user l Hlt _ IH]; [reflexivity|].
  destruct (lookup_lt_is_Some_2 _ _ Hlt) as [u Hu].
  cbn [filterA List.filter]. unfold bind at 1. unfold bind at 1.
  unfold deref at 1. rewrite Hu. cbn. unfold bind at 1. rewrite IH. cbn.
  now destruct (strict_eq_str (User.teamId u) teamId).
Qed.

Lemma playersForTeam_members (teamId : option string) (w : World) :
  resolves w -> _playersForTeam teamId w = Normal (members teamId w) w.
Proof.
  intros H. unfold _playersForTeam, members. unfold bind, getThis, gets.
  now apply filterA_members.
Qed.

#[local] Arguments _playersForTeam : simpl never.

Lemma removeTeam_unfold (w : World) (teamId : string) :
  resolves w ->
  JSMap.has teamId (teams (this w)) = true ->
  let w1 := set_this
              (set_turnOrder
                 (List.filter
                    (fun team =>
                       negb (strict_eq_str (Turn.teamId team) (Some teamId)))
                    (turnOrder (this w)))
                 (set_teams (JSMap.delete teamId (teams (this w))) (this w)))
              w in
  removeTeam teamId w
  = match members (Some teamId) w with
    | [] => emit "teamRemoved" (OfId teamId) w1
    | _ :: _ =>
        Abrupt "TypeError: cannot create property 'teamId' on string" w1
    end.
Proof.
  intros Hres Hhas. cbn zeta. unfold removeTeam. run_js. rewrite Hhas. cbn.
  match goal with |- context [_playersForTeam _ ?w1] =>
    rewrite (playersForTeam_members (Some teamId) w1) by exact Hres;
    change (members (Some teamId) w1) with (members (Some teamId) w)
  end.
  destruct (members (Some teamId) w); reflexivity.
Qed.

(** X12.  [removeTeam] of a team the session does not have changes nothing.
    Of a team it has, it deletes the team and the team's entries in the
    queue -- the test on the active team never refuses, [activeTeam] being
    [null] -- and then goes through the members: with none, [teamRemoved] is emitted; with
    any, the method throws a TypeError before it emits.  In no case is the
    [teamId] of a player cleared. *)
Theorem removeTeam_effect (w : World) (teamId : string) :
  resolves w ->
  let w' := final (removeTeam teamId w) in
  if JSMap.has teamId (teams (this w))
  then teams (this w') = JSMap.delete teamId (teams (this w))
       /\ turnOrder (this w')
          = List.filter
              (fun team => negb (strict_eq_str (Turn.teamId team) (Some teamId)))
              (turnOrder (this w))
       /\ heap w' = heap w
       /\ match members (Some teamId) w with
          | [] => threw (removeTeam teamId w) = false
                  /\ emitted w' = emitted w ++ [("teamRemoved", OfId teamId)]
          | _ :: _ => threw (removeTeam teamId w) = true
                      /\ emitted w' = emitted w
          end
  else removeTeam teamId w = Normal tt w.
Proof.
  intros Hres. cbn zeta.
  destruct (JSMap.has teamId (teams (this w))) eqn:Hhas.
  - rewrite (removeTeam_unfold w teamId Hres Hhas).
    destruct (members (Some teamId) w); cbn; repeat split.
  - unfold removeTeam. run_js. now rewrite Hhas.
Qed.

(** ** What no command does *)

#[local] Instance calm_Frame : Frame calm.
Proof.
  split.
  - intros w. split; auto.
  - intros w1 w2 w3 [K1 R1] [K2 R2]. split; auto.
Qed.

Lemma array_size_falsy {A : Type} (a : list A) :
  truthy (Array.prop "size" a) = false.
Proof. reflexivity. Qed.

Lemma score_skips (w : World) : _score w = Normal tt w.
Proof. reflexivity. Qed.

Lemma startTurn_refused (w : World) : startTurn w = Normal tt w.
Proof.
  unfold startTurn, canStartTurn. run_js.
  now rewrite andb_false_r.
Qed.

Lemma has_set_kept {V : Type} (k k' : string) (v : V) (m : JSMap.t V) :
  JSMap.has k m = true -> JSMap.has k (JSMap.set k' v m) = true.
Proof.
  intros H. apply JSMapFacts.has_get in H as [v0 H].
  apply JSMapFacts.has_get.
  destruct (String.eqb_spec k k') as [->|Hne].
  - exists v. apply get_set_same.
  - exists v0. now rewrite get_set_other.
Qed.

Lemma calm_game (w w' : World) :
  emitted w' = emitted w ->
  intervals w' = intervals w ->
  (forall k : string,
      JSMap.has k (removedPlayers (this w)) = true ->
      JSMap.has k (removedPlayers (this w')) = true) ->
  (resting (this w) -> resting (this w')) ->
  calm w w'.
Proof.
  intros He Hi Hk Hr. split; [exact Hk|].
  intros [H1 H2]. split; [congruence|auto].
Qed.

Lemma calm_modifyThis (f : Game -> Game) :
  (forall (g : Game) (k : string),
      JSMap.has k (removedPlayers g) = true ->
      JSMap.has k (removedPlayers (f g)) = true) ->
  (forall g : Game, resting g -> resting (f g)) ->
  always calm (modifyThis f).
Proof.
  intros Hk Hr w. apply calm_game; cbn; auto.
Qed.

Lemma calm_heap (w w' : World) :
  this w' = this w -> intervals w' = intervals w -> emitted w' = emitted w ->
  calm w w'.
Proof.
  intros Ht Hi He. apply calm_game; try assumption; rewrite Ht; auto.
Qed.

Lemma calm_update (user : ref) (f : User.t -> User.t) :
  always calm (update user f).
Proof.
  intros w. unfold update. destruct (heap w !! user); now apply calm_heap.
Qed.

Lemma calm_shuffled {A : Type} (a : list A) : always calm (shuffled a).
Proof. intros w. now apply calm_heap. Qed.

Lemma calm_newUser (u : User.t) : always calm (newUser u).
Proof. intros w. now apply calm_heap. Qed.

Lemma calm_clearInterval (h : option nat) : always calm (clearInterval h).
Proof.
  intros w. destruct h as [h|]; [|apply frame_refl].
  split; [auto|].
  intros [Hi Hr]. split; [|exact Hr]. cbn. now rewrite Hi.
Qed.

Lemma calm_emit (event : string) (args : Payload) :
  always calm (emit event args).
Proof.
  intros w. split; [auto|].
  intros [Hi Hr]. split; [exact Hi|exact Hr].
Qed.

Lemma calm_noop {A : Type} (c : Js A) :
  (forall w, final (c w) = w) -> always calm c.
Proof. intros H w. rewrite H. apply frame_refl. Qed.

Lemma calm_randomizeEntries : always calm _randomizeEntries.
Proof.
  intros w. apply calm_game; try reflexivity; [auto|].
  intros (H1 & H2 & H3 & H4 & H5). unfold _randomizeEntries. run_js.
  repeat split; try assumption. cbn. rewrite H3. apply shuffle_nil.
Qed.

Lemma calm_randomizeTurnOrder : always calm _randomizeTurnOrder.
Proof.
  intros w. apply calm_game; try reflexivity; [auto|].
  intros (H1 & H2 & H3 & H4 & H5). unfold _randomizeTurnOrder. run_js.
  repeat split; try assumption. cbn. apply shuffle_nil.
Qed.

Lemma nextTurn_final (w : World) :
  final (nextTurn w) = set_this (set_turnOrder (tail (turnOrder (this w))) (this w)) w.
Proof.
  unfold nextTurn, _shiftTurn, Turn_push. run_js.
  now destruct (turnOrder (this w)).
Qed.

Lemma calm_nextTurn : always calm nextTurn.
Proof.
  intros w. rewrite nextTurn_final. apply calm_game; try reflexivity; [auto|].
  intros (H1 & H2 & H3 & H4 & H5). repeat split; try assumption.
  cbn. now rewrite H5.
Qed.

Ltac resting_side :=
  let g := fresh "g" in
  let H1 := fresh in let H2 := fresh in let H3 := fresh in
  let H4 := fresh in let H5 := fresh in
  intros g (H1 & H2 & H3 & H4 & H5);
  repeat split; cbn; try assumption;
  first [ now rewrite H4 | now rewrite H5 | reflexivity ].

Ltac removed_side :=
  let g := fresh "g" in
  let k := fresh "k" in
  let H := fresh in
  intros g k H; cbn; first [ exact H | now apply has_set_kept ].

Ltac calm_step :=
  first
    [ apply always_ret
    | apply always_throw
    | apply always_gets
    | apply always_deref
    | apply (calm_noop _score score_skips)
    | apply (calm_noop startTurn); intros ?; now rewrite startTurn_refused
    | apply calm_nextTurn
    | apply calm_randomizeEntries
    | apply calm_randomizeTurnOrder
    | apply calm_update
    | apply calm_shuffled
    | apply calm_newUser
    | apply calm_clearInterval
    | apply calm_emit
    | apply calm_modifyThis; [removed_side|resting_side]
    | apply always_for_in; intros ?
    | apply always_every; intros ?
    | apply always_filterA; intros ?
    | apply always_mapA; intros ?
    | apply always_guarded
    | rewrite array_size_falsy
    | apply always_bind; [|intros ?]
    | match goal with
      | |- always _ (if ?b then _ else _) => destruct b
      | |- always _ (match ?x with _ => _ end) => destruct x
      end ].

Create HintDb public.
#[local] Hint Unfold
  canStart _fillEntries _playersForTeam addPlayer setPlayerName setFont
  removePlayer setEntriesPerPlayer addEntry addTeam addPlayerToTeam removeTeam
  setTurnTime startRound start finishRound nextEntry finishTurn nextRound
  finish _checkPlayerReady _playerIsReady getThis : public.

Lemma exec_calm (c : Command) : always calm (exec c).
Proof.
  destruct c; cbn [exec]; try unfold tick; autounfold with public;
    repeat calm_step.
Qed.

Lemma run_calm (cs : list Command) (w : World) : calm w (run cs w).
Proof.
  revert w. induction cs as [|c cs IH]; intros w; cbn.
  - apply frame_refl.
  - eapply frame_trans; [apply exec_calm|apply IH].
Qed.



(** ** No countdown ever runs *)

#[local] Instance no_new_interval_Frame : Frame no_new_interval.
Proof.
  split.
  - intros w h H. exact H.
  - intros w1 w2 w3 H1 H2 h H. auto.
Qed.









Create HintDb timerless.
#[local] Hint Unfold
  canStart _fillEntries _playersForTeam _randomizeTurnOrder _randomizeEntries
  _score _shiftTurn Turn_push addPlayer setPlayerName setFont removePlayer
  setEntriesPerPlayer addEntry addTeam addPlayerToTeam removeTeam setTurnTime
  startRound start finishRound nextEntry finishTurn nextTurn nextRound finish
  _checkPlayerReady _playerIsReady getThis : timerless.







(** X14.  The removed-set only grows: an id that is in it stays in it
    through every sequence of commands, a later [addPlayer] of the id
    included. *)
Theorem removed_set_only_grows (cs : list Command) (w : World) (k : string) :
  JSMap.has k (removedPlayers (this w)) = true ->
  JSMap.has k (removedPlayers (this (run cs w))) = true.
Proof. apply run_calm. Qed.

Lemma new_World_at_rest (g : Rng) : at_rest (new_World g).
Proof. repeat split. Qed.

(** X15.  A session that begins with [new Game()] never gets past rest,
    whatever the commands: the master entry list and the stack stay empty
    (the loops of [_fillEntries] copy nothing), the Turn Order Queue stays
    empty (the loop of [_randomizeTurnOrder] builds nothing), no turn starts
    and no countdown runs (the guard of [startTurn] never passes). *)
Theorem fresh_session_stays_at_rest (w : World) :
  reachable w -> at_rest w.
Proof.
  induction 1 as [g|c w Hw IH].
  - apply new_World_at_rest.
  - now apply (exec_calm c w).
Qed.

(** ** Registries that resolve *)

Lemma resolves_lookup (w : World) (k : string) (user : ref) :
  resolves w ->
  JSMap.get k (players (this w)) = Some user ->
  exists u, heap w !! user = Some u.
Proof.
  intros Hres Hg. apply JSMapFacts.get_In in Hg.
  assert (Hin : In user (JSMap.values (players (this w)))).
  { unfold JSMap.values. apply in_map_iff. now exists (k, user). }
  unfold resolves in Hres. rewrite List.Forall_forall in Hres.
  apply lookup_lt_is_Some_2. now apply Hres.
Qed.

(** ** Views *)

Context {DG : DataGetters}.

Lemma mapA_resolved (l : list ref) (w : World) :
  Forall (fun user : ref => (user < List.length (heap w))%nat) l ->
  exists ds,
    mapA (fun user => (u <- deref user ;; ret (user_data u))%js) l w
    = Normal ds w.
Proof.
  induction 1 as [|user l Hlt _ [ds IH]]; [now exists []|].
  destruct (lookup_lt_is_Some_2 _ _ Hlt) as [u Hu].
  exists (user_data u :: ds).
  cbn [mapA]. unfold bind at 1. unfold bind at 1. unfold deref at 1.
  rewrite Hu. cbn. unfold bind at 1. now rewrite IH.
Qed.

Lemma data_returns (w : World) :
  resolves w ->
  exists d,
    data w = Normal d w
    /\ d_font d = None /\ d_entries d = None /\ d_activeEntry d = None
    /\ d_activeTeam d = None /\ d_activePlayer d = None
    /\ d_turnOrder d = turnOrder (this w).
Proof.
  intros Hres. destruct (mapA_resolved _ w Hres) as [ps Hps].
  unfold data, playerData, teamData.
  unfold bind at 1. unfold bind at 1. unfold getThis at 1, gets at 1.
  rewrite Hps. cbn. eexists. split; [reflexivity|]. repeat split.
Qed.

(** X18.  [dataForUser] is a read: it returns and leaves the session as it
    is.  For a registered player the view carries the player's font and
    entries, for anybody else neither.  [activeEntry] is in no view -- not in
    that of the player at the front of the queue either, the test being on
    [activePlayer] -- and the view names no active team or player while
    showing the queue itself. *)
Theorem dataForUser_view (w : World) (userId : string) :
  resolves w ->
  exists d,
    dataForUser userId w = Normal d w
    /\ d_activeEntry d = None
    /\ d_activeTeam d = None /\ d_activePlayer d = None
    /\ d_turnOrder d = turnOrder (this w)
    /\ match JSMap.get userId (players (this w)) with
       | Some user =>
           exists u, heap w !! user = Some u
                     /\ d_font d = Some (User.font u)
                     /\ d_entries d = Some (User.entries u)
       | None => d_font d = None /\ d_entries d = None
       end.
Proof.
  intros Hres.
  destruct (data_returns w Hres) as [d [Hd [H1 [H2 [H3 [H4 [H5 H6]]]]]]].
  unfold dataForUser. unfold bind at 1. rewrite Hd.
  unfold bind at 1. unfold getThis at 1, gets at 1.
  destruct (JSMap.get userId (players (this w))) as [user|] eqn:Hg.
  - destruct (resolves_lookup w userId user Hres Hg) as [u Hu].
    unfold bind, deref. rewrite Hu. cbn.
    eexists. split; [reflexivity|]. cbn.
    split; [assumption|]. split; [assumption|]. split; [assumption|].
    split; [assumption|]. exists u. now repeat split.
  - exists d. cbn. repeat split; assumption.
Qed.

Lemma dataForUser_seen (w : World) (userId : string) (user : ref) :
  resolves w ->
  JSMap.get userId (players (this w)) = Some user ->
  exists d,
    dataForUser userId w = Normal d w
    /\ d_font d = User.font <$> heap w !! user
    /\ d_entries d = User.entries <$> heap w !! user.
Proof.
  intros Hres Hg.
  destruct (data_returns w Hres) as [d [Hd _]].
  destruct (resolves_lookup w userId user Hres Hg) as [u Hu].
  unfold dataForUser. unfold bind at 1. rewrite Hd.
  unfold bind at 1. unfold getThis at 1, gets at 1. rewrite Hg.
  unfold bind, deref. rewrite Hu. cbn.
  eexists. split; [reflexivity|]. now split.
Qed.

(** X19.  What [setFont] and [addEntry] write for a registered player is
    what that player's next view shows: the font given, and the entries with
    the new one at the end. *)
Theorem written_then_viewed
    (w : World) (userId : string) (user : ref) (u : User.t)
    (font : option string) (entry : string) :
  resolves w ->
  JSMap.get userId (players (this w)) = Some user ->
  heap w !! user = Some u ->
  (exists d w',
      dataForUser userId (final (setFont userId font w)) = Normal d w'
      /\ d_font d = Some font
      /\ d_entries d = Some (User.entries u))
  /\ (exists d w',
         dataForUser userId (final (addEntry userId entry w)) = Normal d w'
         /\ d_font d = Some (User.font u)
         /\ d_entries d = Some (User.entries u ++ [entry])).
Proof.
  intros Hres Hg Hu.
  pose proof (lookup_lt_Some _ _ _ Hu) as Hlt.
  split.
  - assert (E : final (setFont userId font w)
                = set_emitted (emitted w ++ [("playerFontSet", OfUser user)])
                    (set_this (set_updatedAt (S (updatedAt (this w))) (this w))
                       (set_heap (<[user := User.set_font font u]> (heap w)) w))).
    { unfold setFont, update. run_js. now rewrite Hg, Hu. }
    rewrite E.
    match goal with |- context [dataForUser userId ?w1] =>
      assert (Hres1 : resolves w1)
        by (unfold resolves; cbn; now rewrite length_insert);
      destruct (dataForUser_seen w1 userId user Hres1) as [d [Hd [Hf He]]];
        [exact Hg|];
      exists d, w1; split; [exact Hd|]
    end.
    cbn in Hf, He. rewrite list_lookup_insert_eq in Hf, He by assumption.
    now split.
  - assert (Hh : exists u',
               heap (final (addEntry userId entry w)) !! user = Some u'
               /\ User.font u' = User.font u
               /\ User.entries u' = User.entries u ++ [entry]).
    { unfold addEntry, update. run_js. rewrite Hg, Hu. cbn.
      match goal with |- context [_checkPlayerReady user ?w1] =>
        rewrite (checkPlayerReady_effect w1 user
                   (User.set_entries (User.entries u ++ [entry]) u))
          by (cbn; now apply list_lookup_insert_eq)
      end.
      cbn zeta.
      match goal with |- context [if ?b then _ else _] => destruct b end; cbn.
      - rewrite list_insert_insert_eq, list_lookup_insert_eq by assumption.
        eexists. split; [reflexivity|]. now split.
      - rewrite list_lookup_insert_eq by assumption.
        eexists. split; [reflexivity|]. now split. }
    destruct Hh as [u' [Hu' [Hf' He']]].
    assert (Hp : players (this (final (addEntry userId entry w)))
                 = players (this w)).
    { apply (exec_same_registry (AddEntry userId entry)). }
    assert (Hres1 : resolves (final (addEntry userId entry w))).
    { unfold resolves. rewrite Hp.
      destruct (exec_latched (AddEntry userId entry) w) as [Hl _].
      unfold resolves in Hres. rewrite List.Forall_forall in Hres.
      apply List.Forall_forall. intros r Hin.
      destruct (lookup_lt_is_Some_2 _ _ (Hres r Hin)) as [u0 Hu0].
      destruct (Hl r u0 Hu0) as [u1 [Hu1 _]].
      eapply lookup_lt_Some. exact Hu1. }
    destruct (dataForUser_seen _ userId user Hres1) as [d [Hd [Hf He]]];
      [now rewrite Hp|].
    exists d, (final (addEntry userId entry w)). split; [exact Hd|].
    rewrite Hu' in Hf, He. cbn in Hf, He. rewrite Hf, He, Hf', He'.
    now split.
Qed.


(** ** Saving *)

#[local] Instance saved_with_Frame : Frame saved_with.
Proof.
  split.
  - intros w. reflexivity.
  - unfold saved_with. intros w1 w2 w3 H1 H2. lia.
Qed.

Lemma saved_with_same (w w' : World) :
  updatedAt (this w') = updatedAt (this w) ->
  emitted w' = emitted w ->
  saved_with w w'.
Proof. unfold saved_with. intros -> ->. reflexivity. Qed.

Lemma saved_with_modifyThis (f : Game -> Game) :
  (forall g, updatedAt (f g) = updatedAt g) -> always saved_with (modifyThis f).
Proof. intros Hf w. apply saved_with_same; [apply Hf|reflexivity]. Qed.

Lemma saved_with_emit (event : string) (args : Payload) :
  always saved_with (emit event args).
Proof.
  intros w. unfold saved_with.
  assert (He : emitted (final (emit event args w)) = emitted w ++ [(event, args)])
    by reflexivity.
  assert (Hu : updatedAt (this (final (emit event args w)))
               = S (updatedAt (this w))) by reflexivity.
  rewrite He, Hu, List.length_app. cbn. lia.
Qed.

Lemma saved_with_update (user : ref) (f : User.t -> User.t) :
  always saved_with (update user f).
Proof.
  intros w. unfold update. destruct (heap w !! user); now apply saved_with_same.
Qed.

Lemma saved_with_clearInterval (h : option nat) :
  always saved_with (clearInterval h).
Proof. intros w. destruct h; now apply saved_with_same. Qed.

Lemma saved_with_quiet {A : Type} (c : Js A) :
  (forall w, this (final (c w)) = this w /\ emitted (final (c w)) = emitted w) ->
  always saved_with c.
Proof.
  intros H w. destruct (H w) as [Ht He]. apply saved_with_same; congruence.
Qed.

Ltac saved_with_step :=
  first
    [ apply always_ret
    | apply always_throw
    | apply always_gets
    | apply always_deref
    | apply saved_with_emit
    | apply saved_with_update
    | apply saved_with_clearInterval
    | apply saved_with_modifyThis; intros ?; reflexivity
    | apply (saved_with_quiet (shuffled _)); intros ?; now split
    | apply (saved_with_quiet setInterval); intros ?; now split
    | apply (saved_with_quiet (newUser _)); intros ?; now split
    | apply always_for_in; intros ?
    | apply always_every; intros ?
    | apply always_filterA; intros ?
    | apply always_mapA; intros ?
    | apply always_guarded
    | apply always_bind; [|intros ?]
    | match goal with
      | |- always _ (if ?b then _ else _) => destruct b
      | |- always _ (match ?x with _ => _ end) => destruct x
      end ].

Lemma exec_saved_with (c : Command) : always saved_with (exec c).
Proof.
  destruct c; cbn [exec]; try unfold tick; autounfold with methods;
    unfold _checkPlayerReady, _playerIsReady; repeat saved_with_step.
Qed.

(** X20.  Every signal is saved and nothing else is: over any sequence of
    commands the save count ([updatedAt]) grows by the number of signals
    emitted, so in a session begun with [new Game()] it is the length of the
    log.  A command that is refused, ignored or throws before its [emit]
    does not save. *)
Theorem saves_match_signals :
  (forall (cs : list Command) (w : World), saved_with w (run cs w))
  /\ (forall w : World,
         reachable w -> updatedAt (this w) = List.length (emitted w)).
Proof.
  assert (H : forall (cs : list Command) (w : World), saved_with w (run cs w)).
  { induction cs as [|c cs IH]; intros w; cbn.
    - apply frame_refl.
    - eapply frame_trans; [apply exec_saved_with|apply IH]. }
  split; [exact H|].
  induction 1 as [g|c w Hw IH]; [reflexivity|].
  pose proof (exec_saved_with c w) as Hs. unfold saved_with in Hs. lia.
Qed.

End Properties.

(** * The properties on the sample sessions *)

#[local] Existing Instance Shuffle_rev.
#[local] Existing Instance EntryList_counted.

(** ** Starting *)



Example start_when_flagged :
  isStarted
    (this (run (Scenario.lobby_ready
                ++ [AddTeam Scenario.teamA; AddPlayerToTeam "p1" "A"; Start])
               Scenario.fresh))
  = true.
Proof. reflexivity. Qed.

(** ** Entries and scoring *)

(** The failing input of C2: in the middle of team A's turn [nextEntry()]
    leaves the score of A at 0 and emits [roundFinished] only. *)
Example nextEntry_midturn :
  teams (this (final (nextEntry Scenario.midturn)))
  = [("A", Scenario.teamA); ("B", Scenario.teamB)]
  /\ emitted (final (nextEntry Scenario.midturn)) = [("roundFinished", NoArgs)].
Proof. split; reflexivity. Qed.

(** The failing input of C3: with [z] and [x] left of [x], [y], [z], the
    stack after [finishTurn()] holds all three again. *)
Lemma finishTurn_not_permutation_of_remaining :
  ~ Permutation
      (entriesRemaining (this Scenario.midturn))
      (entriesRemaining (this (final (finishTurn Scenario.midturn)))).
Proof.
  intros H. apply Permutation_length in H. vm_compute in H. discriminate.
Qed.

(** ** Turns *)

(** The failing input of C4: [nextTurn()] throws, and what is left of the
    queue is team B. *)
Example nextTurn_midturn :
  threw (nextTurn Scenario.midturn) = true
  /\ turnOrder (this (final (nextTurn Scenario.midturn)))
     = [Turn.mk (Some "B") ["p3"]]
  /\ emitted (final (nextTurn Scenario.midturn)) = [].
Proof. repeat split. Qed.

(** The failing input of C5: the queue starts with team A and player p1, and
    the projections are [null]. *)
Example projections_midturn :
  turnOrder Scenario.midturn_Game
  = [Turn.mk (Some "A") ["p1"; "p2"]; Turn.mk (Some "B") ["p3"]]
  /\ activeTeam Scenario.midturn_Game = None
  /\ activePlayer Scenario.midturn_Game = None
  /\ nextTeam Scenario.midturn_Game = None
  /\ nextPlayer Scenario.midturn_Game = None.
Proof. repeat split. Qed.


(** C7, as the specification words it, fails: the second [finishTurn()] in
    a row is not a no-op. *)
Lemma finishTurn_second_call_not_noop :
  final (finishTurn (final (finishTurn Scenario.midturn)))
  <> final (finishTurn Scenario.midturn).
Proof.
  intros H. apply (f_equal emitted) in H. vm_compute in H. discriminate.
Qed.

(** ** Players *)

(** The failing input of C8: p2 is in the removed-set, and [addPlayer] with
    p2's object registers p2 again. *)
Lemma removed_id_rejoins :
  JSMap.has "p2" (removedPlayers (this Scenario.evicted_world)) = true
  /\ heap Scenario.evicted_world !! 1%nat = Some (Scenario.joiner "p2")
  /\ final (addPlayer 1%nat false Scenario.evicted_world)
     <> Scenario.evicted_world.
Proof.
  split; [reflexivity|]. split; [reflexivity|].
  intros H. apply (f_equal (fun w => JSMap.has "p2" (players (this w)))) in H.
  vm_compute in H. discriminate.
Qed.

Lemma registry_ids_unique_evicted :
  List.NoDup (registered_ids Scenario.evicted_world)
  /\ addPlayer 0%nat false Scenario.evicted_world
     = Normal tt Scenario.evicted_world
  /\ JSMap.get "p2"
       (players (this (final (addPlayer 1%nat false Scenario.evicted_world))))
     = Some 1%nat.
Proof.
  destruct (@registry_ids_unique Shuffle_rev EntryList_counted)
    as [Huniq [Hsame Hnew]].
  split; [|split].
  - apply Huniq. unfold Scenario.evicted_world.
    apply reachable_run. exact (@reachable_new Shuffle_rev EntryList_counted tt).
  - apply (Hsame Scenario.evicted_world 0%nat (Scenario.joiner "p1") false).
    + reflexivity.
    + reflexivity.
  - apply (Hnew Scenario.evicted_world 1%nat (Scenario.joiner "p2") false).
    + reflexivity.
    + reflexivity.
Defined.

(** The failing input of C9: p1 holds the turn and is removed all the same. *)
Lemma removePlayer_removes_active_player :
  JSMap.has "p1" (players (this Scenario.midturn)) = true
  /\ JSMap.has "p1"
       (players (this (final (removePlayer "p1" false Scenario.midturn))))
     = false
  /\ Forall (fun team => ~ In "p1" (Turn.players team))
       (turnOrder (this (final (removePlayer "p1" false Scenario.midturn)))).
Proof.
  split; [reflexivity|].
  apply (removePlayer_removes_any Scenario.midturn "p1" false).
  reflexivity.
Defined.

Example removePlayer_midturn :
  turnOrder (this (final (removePlayer "p1" false Scenario.midturn)))
  = [Turn.mk (Some "A") ["p2"]; Turn.mk (Some "B") ["p3"]]
  /\ master (this (final (removePlayer "p1" false Scenario.midturn)))
     = Some "p2"
  /\ emitted (final (removePlayer "p1" false Scenario.midturn))
     = [("playerRemoved", OfId "p1")].
Proof. repeat split. Qed.

(** ** Readiness *)

(** The player of the second lobby is flagged; a new quota of 5 leaves the
    flag set, and [playerReady] has been emitted once. *)
Lemma isReady_latches_lobby :
  (exists u : User.t,
      heap (final (exec (SetEntriesPerPlayer 5)
                        (run Scenario.lobby_ready Scenario.fresh)))
        !! 0%nat = Some u
      /\ User.isReady u = true)
  /\ (count_playerReady 0
        (emitted (run (Scenario.lobby_ready
                       ++ [SetEntriesPerPlayer 5; AddEntry "p1" "y";
                           SetPlayerName "p1" (Some "Anna")])
                      Scenario.fresh))
      <= 1)%nat.
Proof.
  destruct (@isReady_latches Shuffle_rev EntryList_counted)
    as [Hlatch [_ Honce]].
  split.
  - apply (Hlatch (SetEntriesPerPlayer 5)
                  (run Scenario.lobby_ready Scenario.fresh) 0%nat
                  (User.mk "p1" (Some "Ann") None None ["x"] true)).
    + reflexivity.
    + reflexivity.
  - exact (Honce _ tt 0%nat).
Defined.

Example playerReady_once :
  count_playerReady 0
    (emitted (run (Scenario.lobby_ready
                   ++ [SetEntriesPerPlayer 5; AddEntry "p1" "y";
                       SetPlayerName "p1" (Some "Anna");
                       SetEntriesPerPlayer 2; SetPlayerName "p1" (Some "Ann")])
                  Scenario.fresh))
  = 1%nat.
Proof. reflexivity. Qed.

(** With entries in a plain Array, [user.entries.size] is [undefined] and no
    player becomes ready. *)
Example playerReady_never_with_Array :
  count_playerReady 0
    (emitted (@run Shuffle_rev EntryList_Array Scenario.lobby_ready Scenario.fresh))
  = 0%nat.
Proof. reflexivity. Qed.

(** * More of the class on the sample sessions *)

#[local] Existing Instance Scenario.DataGetters_plain.

Lemma midturn_resolves : resolves Scenario.midturn.
Proof. unfold resolves. cbn. repeat constructor. Qed.

Lemma midturn_keyed : registry_keyed Scenario.midturn.
Proof.
  intros k user [H|[H|[H|[]]]]; inversion H; subst;
    eexists; split; reflexivity.
Qed.

Lemma lobby_named_resolves : resolves Scenario.lobby_named.
Proof. unfold resolves. cbn. repeat constructor. Qed.

(** ** Rounds and the countdown *)

Lemma round_restarts_midturn :
  roundStarted
    (this (run [FinishRound; NextRound; StartRound] Scenario.midturn)) = true
  /\ turnStarted
       (this (run [FinishRound; NextRound; StartRound] Scenario.midturn)) = true.
Proof.
  destruct (round_restarts Scenario.midturn) as [H1 [_ [_ [H4 _]]]].
  - reflexivity.
  - simpl. lia.
  - simpl. lia.
  - split; [exact H1|exact H4].
Defined.

Lemma finishRound_clears_timer_ticking :
  ~ In 0%nat (intervals (final (finishRound Scenario.ticking)))
  /\ tick 0 (final (finishRound Scenario.ticking))
     = Normal tt (final (finishRound Scenario.ticking)).
Proof.
  destruct (finishRound_clears_timer Scenario.ticking 0) as [H1 [H2 _]].
  - reflexivity.
  - split; [exact H1|exact H2].
Defined.

Lemma countdown_expires_three :
  emitted (run (repeat (Tick 0) 2) (Scenario.counting 3)) = []
  /\ emitted (run (repeat (Tick 0) 3) (Scenario.counting 3))
     = [("turnFinished", NoArgs)].
Proof.
  destruct (countdown_expires 2 (Scenario.counting 3) 0) as [H1 [H2 _]].
  - simpl. left. reflexivity.
  - reflexivity.
  - reflexivity.
  - vm_compute. discriminate.
  - split; [exact H1|exact H2].
Defined.

Lemma countdown_below_zero_five :
  emitted (run (repeat (Tick 0) 5) (Scenario.counting 0)) = []
  /\ turnTimeLeft (this (run (repeat (Tick 0) 5) (Scenario.counting 0)))
     = 0 - Z.of_nat 5.
Proof.
  destruct (countdown_below_zero_runs_on 5 (Scenario.counting 0) 0)
    as [H1 [_ [_ H3]]].
  - simpl. lia.
  - split; [exact H1|]. apply H3.
    + simpl. left. reflexivity.
    + vm_compute. reflexivity.
Defined.

(** ** Teams and players *)

Lemma addTeam_overwrites_score :
  JSMap.get "A"
    (teams (this (final (addTeam (Team.mk "A" "Team A" 7) Scenario.midturn))))
  = Some (Team.mk "A" "Team A" 7)
  /\ JSMap.get "B"
       (teams (this (final (addTeam (Team.mk "A" "Team A" 7) Scenario.midturn))))
     = Some Scenario.teamB.
Proof.
  destruct (addTeam_overwrites Scenario.midturn (Team.mk "A" "Team A" 7))
    as [H1 [H2 _]].
  split; [exact H1|]. apply (H2 "B"). discriminate.
Defined.

Lemma unknown_player_ignored_midturn :
  setPlayerName "p9" (Some "Zed") Scenario.midturn = Normal tt Scenario.midturn
  /\ removePlayer "p9" false Scenario.midturn = Normal tt Scenario.midturn.
Proof.
  destruct (unknown_player_ignored Scenario.midturn "p9" (Some "Zed") None
              "x" "A" false) as [H1 [_ [_ [_ H5]]]].
  - reflexivity.
  - split; [exact H1|exact H5].
Defined.

Lemma addEntry_effect_lobby :
  emitted (final (addEntry "p1" "y" Scenario.lobby_named))
  = emitted Scenario.lobby_named ++ [("playerReady", OfUser 0%nat)].
Proof.
  destruct (addEntry_effect Scenario.lobby_named "p1" "y" 0%nat
              (User.mk "p1" (Some "Ann") None None ["x"] false))
    as [_ [_ H]].
  - reflexivity.
  - reflexivity.
  - exact H.
Defined.

Lemma setPlayerName_effect_lobby :
  emitted (final (setPlayerName "p1" (Some "") Scenario.lobby_named))
  = emitted Scenario.lobby_named ++ [("playerNameSet", OfUser 0%nat)].
Proof.
  destruct (setPlayerName_effect Scenario.lobby_named "p1" (Some "") 0%nat
              (User.mk "p1" (Some "Ann") None None ["x"] false))
    as [_ [_ H]].
  - reflexivity.
  - reflexivity.
  - exact H.
Defined.

Lemma removePlayer_effect_midturn :
  master (this (final (removePlayer "p1" true Scenario.midturn))) = Some "p2"
  /\ removedPlayers (this (final (removePlayer "p1" true Scenario.midturn))) = []
  /\ emitted (final (removePlayer "p1" true Scenario.midturn))
     = [("playerLeft", OfId "p1")].
Proof.
  destruct (removePlayer_effect Scenario.midturn "p1" true)
    as [_ [_ [H3 [H4 [H5 _]]]]].
  - exact midturn_keyed.
  - reflexivity.
  - split; [exact H3|]. split; [exact H4|exact H5].
Defined.

Lemma removeTeam_effect_midturn :
  threw (removeTeam "B" Scenario.midturn) = true
  /\ emitted (final (removeTeam "B" Scenario.midturn)) = []
  /\ heap (final (removeTeam "B" Scenario.midturn)) = heap Scenario.midturn
  /\ JSMap.has "B" (teams (this (final (removeTeam "B" Scenario.midturn))))
     = false.
Proof.
  pose proof (removeTeam_effect Scenario.midturn "B" midturn_resolves) as H.
  simpl in H. destruct H as [H1 [_ [H3 [H4 H5]]]].
  split; [exact H4|]. split; [exact H5|]. split; [exact H3|].
  reflexivity.
Defined.

(** ** Sequences of commands *)

Lemma removed_set_keeps_p2 :
  JSMap.has "p2"
    (removedPlayers
       (this (run [AddPlayer 1%nat false; RemovePlayer "p2" true;
                   AddPlayer 1%nat true]
                  Scenario.evicted_world)))
  = true.
Proof.
  apply (removed_set_only_grows _ Scenario.evicted_world "p2").
  reflexivity.
Defined.

Lemma lobby_stays_at_rest :
  at_rest
    (run (Scenario.lobby_ready
          ++ [AddTeam Scenario.teamA; AddPlayerToTeam "p1" "A";
              SetTurnTime 30; Start; StartTurn; NextEntry])
         Scenario.fresh).
Proof.
  apply fresh_session_stays_at_rest.
  apply reachable_run.
  exact (@reachable_new Shuffle_rev EntryList_counted tt).
Defined.

Lemma saves_match_signals_lobby :
  updatedAt (this Scenario.lobby_world)
  = List.length (emitted Scenario.lobby_world).
Proof.
  apply (@saves_match_signals Shuffle_rev EntryList_counted).
  unfold Scenario.lobby_world. apply reachable_run.
  exact (@reachable_new Shuffle_rev EntryList_counted tt).
Defined.

(** ** Views *)

Lemma dataForUser_view_midturn :
  exists d,
    dataForUser "p1" Scenario.midturn = Normal d Scenario.midturn
    /\ d_activeEntry d = None
    /\ d_turnOrder d
       = [Turn.mk (Some "A") ["p1"; "p2"]; Turn.mk (Some "B") ["p3"]].
Proof.
  destruct (dataForUser_view Scenario.midturn "p1" midturn_resolves)
    as [d [Hd [H1 [_ [_ [H4 _]]]]]].
  exists d. split; [exact Hd|]. split; [exact H1|exact H4].
Defined.

Lemma written_then_viewed_midturn :
  exists d w',
    dataForUser "p1" (final (setFont "p1" (Some "Lobster") Scenario.midturn))
    = Normal d w'
    /\ d_font d = Some (Some "Lobster").
Proof.
  destruct (written_then_viewed Scenario.midturn "p1" 0%nat Scenario.ann
              (Some "Lobster") "w" midturn_resolves eq_refl eq_refl)
    as [[d [w' [Hd [Hf _]]]] _].
  exists d, w'. split; [exact Hd|exact Hf].
Defined.
